(** * Company directory: the view state of [App.tsx] and its filter pipeline

    The development embeds the component [App] of [src/App.tsx] together
    with the two presentational components it uses
    ([ui/custom-select.tsx], [ui/custom-serach.tsx]):

    - the record type [Company] and the memoised values [filteredData],
      [locations] and [companyNames] are pure functions;
    - the ten [useState] variables form the record [State]; callbacks and
      effects are state transformers, and the browser (fetch, timers,
      intersection observer, user input) is a list of events.

    JavaScript strings are modelled by [string]; the built-in
    [String.prototype.toLowerCase] is a parameter of the development
    (Section variable), instantiated on ASCII letters for the examples. *)

From Stdlib Require Import String Ascii List Bool Arith PeanoNat Lia.
Import ListNotations.
Local Open Scope string_scope.
Local Open Scope list_scope.
Local Open Scope nat_scope.

(* ------------------------------------------------------------------ *)
(** ** Strings *)

Module Str.

(** [s.includes(t)]: [t] occurs in [s] at some position. *)
Fixpoint includes (s t : string) : bool :=
  String.prefix t s ||
  match s with
  | EmptyString => false
  | String _ s' => includes s' t
  end.

(** Truthiness of a string: every string but the empty one. *)
Definition truthy (s : string) : bool :=
  match s with
  | EmptyString => false
  | String _ _ => true
  end.

(** [a || b] on strings. *)
Definition orElse (a b : string) : string :=
  if truthy a then a else b.

(** Lower-casing restricted to the letters A-Z; the instance of
    [toLowerCase] used in the examples. *)
Definition lower_ascii (c : ascii) : ascii :=
  let n := nat_of_ascii c in
  if (65 <=? n) && (n <=? 90) then ascii_of_nat (n + 32) else c.

Fixpoint lower (s : string) : string :=
  match s with
  | EmptyString => EmptyString
  | String c s' => String (lower_ascii c) (lower s')
  end.

End Str.

(* ------------------------------------------------------------------ *)
(** ** The record type and the derived values of [App] *)

(** [Company] of [./types]: the fields the component reads. *)
Record Company : Type := mkCompany {
  owner : string;
  company : string;
  city : string;
  email : string
}.

(** [new Set(xs)] followed by spreading: a [Set] keeps its elements in
    insertion order and ignores a value that is already present. *)
Module JsSet.

Definition has (s : list string) (x : string) : bool :=
  existsb (String.eqb x) s.

Definition add (s : list string) (x : string) : list string :=
  if has s x then s else s ++ [x].

Definition of_list (xs : list string) : list string :=
  fold_left add xs [].

End JsSet.

Section Pipeline.

(** [String.prototype.toLowerCase]. *)
Variable toLowerCase : string -> string.

Definition matchesSearch (filterText : string) (c : Company) : bool :=
  Str.includes (toLowerCase (owner c)) filterText ||
  Str.includes (toLowerCase (company c)) filterText.

Definition matchesCity (locationFilter : string) (c : Company) : bool :=
  if Str.truthy locationFilter then String.eqb (city c) locationFilter else true.

Definition matchesCompany (companyFilter : string) (c : Company) : bool :=
  if Str.truthy companyFilter then String.eqb (company c) companyFilter else true.

(** The memoised [filteredData] as a function of its dependencies. *)
Definition filteredData (companies : list Company)
    (globalFilter locationFilter companyFilter : string) : list Company :=
  let filterText := toLowerCase globalFilter in
  filter (fun c =>
            let matchesSearch := matchesSearch filterText c in
            let matchesCity := matchesCity locationFilter c in
            let matchesCompany := matchesCompany companyFilter c in
            matchesSearch && matchesCity && matchesCompany)
         companies.

End Pipeline.

Definition locations (allCompanies : list Company) : list string :=
  JsSet.of_list (map city allCompanies).

Definition companyNames (allCompanies : list Company) : list string :=
  JsSet.of_list (map company allCompanies).

(** The dropdown of [ui/custom-select.tsx]: a placeholder item followed by
    one item per entry of the [locations] prop; [choiceValue] is the
    argument the item's click handler passes to [handleSelect]. *)
Inductive Choice : Type :=
| Placeholder
| Item (loc : string).

Definition choiceValue (c : Choice) : string :=
  match c with
  | Placeholder => ""
  | Item loc => loc
  end.

Definition dropdownItems (locs : list string) : list Choice :=
  Placeholder :: map Item locs.

Definition choice_eqb (a b : Choice) : bool :=
  match a, b with
  | Placeholder, Placeholder => true
  | Item x, Item y => String.eqb x y
  | _, _ => false
  end.

(* ------------------------------------------------------------------ *)
(** ** The fetch of [fetchData] *)

(** What [fetch] and [res.json()] can do: [fetch] rejects with an error
    carrying [message], or resolves with a response whose body [res.json()]
    either parses to an array of records or rejects with an error message. *)
Record Response : Type := mkResponse {
  ok : bool;
  contentType : option string;          (* res.headers.get("content-type") *)
  json : string + list Company
}.

Inductive FetchResult : Type :=
| Rejects (message : string)
| Resolves (res : Response).

(** [contentType?.includes("application/json")], as a condition. *)
Definition isJson (contentType : option string) : bool :=
  match contentType with
  | Some ct => Str.includes ct "application/json"
  | None => false
  end.

(** The [try] block of [fetchData] up to [res.json()]: [inl message] when
    an error with that message reaches the [catch], [inr data] otherwise. *)
Definition tryFetch (r : FetchResult) : string + list Company :=
  match r with
  | Rejects message => inl message
  | Resolves res =>
      if negb (ok res) || negb (isJson (contentType res))
      then inl "Failed to fetch company data"
      else json res
  end.

(* ------------------------------------------------------------------ *)
(** ** View state *)

(** Callbacks handed to [setTimeout]. *)
Inductive TimerAct : Type :=
| TStore (data : list Company)  (* resolves the 1000 ms pause of [fetchData] *)
| TLoadingOff                   (* [() => setLoading(false)] *)
| THideEnd.                     (* [() => setShowEndMessage(false)] *)

Record Timer : Type := mkTimer {
  tid : nat;        (* the handle [setTimeout] returned *)
  due : nat;        (* earliest time, in ms, at which it may run *)
  act : TimerAct
}.

(** Progress of the one call of [fetchData]. *)
Inductive FetchStatus : Type :=
| NotStarted          (* before mount *)
| AwaitingResponse    (* in [await fetch(...)] or [await res.json()] *)
| AwaitingDelay       (* in [await new Promise(... setTimeout(resolve, 1000))] *)
| Finished.

(** [SortingState] of the table library: column id and direction. *)
Definition SortingState : Type := list (string * bool).

(** The ten [useState] variables of [App], followed by what lives outside
    them: the identity of the array in [allCompanies] (dependency arrays
    compare references), the table's sorting state, the progress of the
    fetch, the clock and the pending timers, and the [timer] variable
    captured by the cleanup of the end-message effect. *)
Record State : Type := mkState {
  allCompanies : list Company;
  companies : list Company;
  page : nat;
  loading : bool;
  hasMore : bool;
  error : option string;
  globalFilter : string;
  locationFilter : string;
  companyFilter : string;
  showEndMessage : bool;
  allCompaniesRef : nat;
  sorting : SortingState;
  fetchStatus : FetchStatus;
  now : nat;
  timers : list Timer;
  nextTid : nat;
  endTimer : option nat
}.

Definition set_allCompanies (v : list Company) (s : State) : State :=
  mkState v (companies s) (page s) (loading s) (hasMore s) (error s)
    (globalFilter s) (locationFilter s) (companyFilter s) (showEndMessage s)
    (allCompaniesRef s) (sorting s) (fetchStatus s) (now s) (timers s)
    (nextTid s) (endTimer s).

Definition set_companies (v : list Company) (s : State) : State :=
  mkState (allCompanies s) v (page s) (loading s) (hasMore s) (error s)
    (globalFilter s) (locationFilter s) (companyFilter s) (showEndMessage s)
    (allCompaniesRef s) (sorting s) (fetchStatus s) (now s) (timers s)
    (nextTid s) (endTimer s).

Definition set_page (v : nat) (s : State) : State :=
  mkState (allCompanies s) (companies s) v (loading s) (hasMore s) (error s)
    (globalFilter s) (locationFilter s) (companyFilter s) (showEndMessage s)
    (allCompaniesRef s) (sorting s) (fetchStatus s) (now s) (timers s)
    (nextTid s) (endTimer s).

Definition set_loading (v : bool) (s : State) : State :=
  mkState (allCompanies s) (companies s) (page s) v (hasMore s) (error s)
    (globalFilter s) (locationFilter s) (companyFilter s) (showEndMessage s)
    (allCompaniesRef s) (sorting s) (fetchStatus s) (now s) (timers s)
    (nextTid s) (endTimer s).

Definition set_hasMore (v : bool) (s : State) : State :=
  mkState (allCompanies s) (companies s) (page s) (loading s) v (error s)
    (globalFilter s) (locationFilter s) (companyFilter s) (showEndMessage s)
    (allCompaniesRef s) (sorting s) (fetchStatus s) (now s) (timers s)
    (nextTid s) (endTimer s).

Definition set_error (v : option string) (s : State) : State :=
  mkState (allCompanies s) (companies s) (page s) (loading s) (hasMore s) v
    (globalFilter s) (locationFilter s) (companyFilter s) (showEndMessage s)
    (allCompaniesRef s) (sorting s) (fetchStatus s) (now s) (timers s)
    (nextTid s) (endTimer s).

Definition set_globalFilter (v : string) (s : State) : State :=
  mkState (allCompanies s) (companies s) (page s) (loading s) (hasMore s)
    (error s) v (locationFilter s) (companyFilter s) (showEndMessage s)
    (allCompaniesRef s) (sorting s) (fetchStatus s) (now s) (timers s)
    (nextTid s) (endTimer s).

Definition set_locationFilter (v : string) (s : State) : State :=
  mkState (allCompanies s) (companies s) (page s) (loading s) (hasMore s)
    (error s) (globalFilter s) v (companyFilter s) (showEndMessage s)
    (allCompaniesRef s) (sorting s) (fetchStatus s) (now s) (timers s)
    (nextTid s) (endTimer s).

Definition set_companyFilter (v : string) (s : State) : State :=
  mkState (allCompanies s) (companies s) (page s) (loading s) (hasMore s)
    (error s) (globalFilter s) (locationFilter s) v (showEndMessage s)
    (allCompaniesRef s) (sorting s) (fetchStatus s) (now s) (timers s)
    (nextTid s) (endTimer s).

Definition set_showEndMessage (v : bool) (s : State) : State :=
  mkState (allCompanies s) (companies s) (page s) (loading s) (hasMore s)
    (error s) (globalFilter s) (locationFilter s) (companyFilter s) v
    (allCompaniesRef s) (sorting s) (fetchStatus s) (now s) (timers s)
    (nextTid s) (endTimer s).

Definition set_allCompaniesRef (v : nat) (s : State) : State :=
  mkState (allCompanies s) (companies s) (page s) (loading s) (hasMore s)
    (error s) (globalFilter s) (locationFilter s) (companyFilter s)
    (showEndMessage s) v (sorting s) (fetchStatus s) (now s) (timers s)
    (nextTid s) (endTimer s).

Definition set_sorting (v : SortingState) (s : State) : State :=
  mkState (allCompanies s) (companies s) (page s) (loading s) (hasMore s)
    (error s) (globalFilter s) (locationFilter s) (companyFilter s)
    (showEndMessage s) (allCompaniesRef s) v (fetchStatus s) (now s) (timers
    s) (nextTid s) (endTimer s).

Definition set_fetchStatus (v : FetchStatus) (s : State) : State :=
  mkState (allCompanies s) (companies s) (page s) (loading s) (hasMore s)
    (error s) (globalFilter s) (locationFilter s) (companyFilter s)
    (showEndMessage s) (allCompaniesRef s) (sorting s) v (now s) (timers s)
    (nextTid s) (endTimer s).

Definition set_now (v : nat) (s : State) : State :=
  mkState (allCompanies s) (companies s) (page s) (loading s) (hasMore s)
    (error s) (globalFilter s) (locationFilter s) (companyFilter s)
    (showEndMessage s) (allCompaniesRef s) (sorting s) (fetchStatus s) v
    (timers s) (nextTid s) (endTimer s).

Definition set_timers (v : list Timer) (s : State) : State :=
  mkState (allCompanies s) (companies s) (page s) (loading s) (hasMore s)
    (error s) (globalFilter s) (locationFilter s) (companyFilter s)
    (showEndMessage s) (allCompaniesRef s) (sorting s) (fetchStatus s) (now
    s) v (nextTid s) (endTimer s).

Definition set_nextTid (v : nat) (s : State) : State :=
  mkState (allCompanies s) (companies s) (page s) (loading s) (hasMore s)
    (error s) (globalFilter s) (locationFilter s) (companyFilter s)
    (showEndMessage s) (allCompaniesRef s) (sorting s) (fetchStatus s) (now
    s) (timers s) v (endTimer s).

Definition set_endTimer (v : option nat) (s : State) : State :=
  mkState (allCompanies s) (companies s) (page s) (loading s) (hasMore s)
    (error s) (globalFilter s) (locationFilter s) (companyFilter s)
    (showEndMessage s) (allCompaniesRef s) (sorting s) (fetchStatus s) (now
    s) (timers s) (nextTid s) v.

(** The state of the first render. *)
Definition initial : State :=
  mkState [] [] 1 false true None "" "" "" false
          0 [("id", false)] NotStarted 0 [] 0 None.

(* ------------------------------------------------------------------ *)
(** ** Timers *)

(** [setTimeout(act, delay)]; the handle returned is [nextTid s]. *)
Definition setTimeout (delay : nat) (a : TimerAct) (s : State) : State :=
  set_nextTid (S (nextTid s))
    (set_timers (timers s ++ [mkTimer (nextTid s) (now s + delay) a]) s).

(** [clearTimeout(h)]; [None] is the [undefined] handle. *)
Definition clearTimeout (h : option nat) (s : State) : State :=
  match h with
  | None => s
  | Some i => set_timers (filter (fun t => negb (tid t =? i)) (timers s)) s
  end.

Definition findTimer (i : nat) (ts : list Timer) : option Timer :=
  find (fun t => tid t =? i) ts.

(* ------------------------------------------------------------------ *)
(** ** Callbacks and effects

    A callback or effect body reads the variables of the render [r] that
    created it and queues its updates on the state [s]. *)

Definition pageSize : nat := 10.

Definition loadPage (r s : State) : State :=
  if (length (allCompanies r) =? 0) || negb (hasMore r) then s
  else
    let end_ := Nat.min (page r * pageSize) (length (allCompanies r)) in
    let s := set_companies (firstn end_ (allCompanies r)) s in
    let s := set_hasMore (end_ <? length (allCompanies r)) s in
    let s := set_loading true s in
    setTimeout 1000 TLoadingOff s.

(** Effect with dependencies [[page, loadPage, allCompanies]]. *)
Definition pageEffect (r s : State) : State :=
  if negb (length (allCompanies r) =? 0) then loadPage r s else s.

(** Effect with dependencies [[loading, hasMore]]: body and cleanup. *)
Definition endEffect (r s : State) : State :=
  if negb (loading r) && negb (hasMore r) then
    let s := set_showEndMessage true s in
    set_endTimer (Some (nextTid s)) (setTimeout 3000 THideEnd s)
  else set_endTimer None s.

Definition endCleanup (s : State) : State :=
  clearTimeout (endTimer s) s.

(** [fetchData], cut at its [await]s: up to [await fetch], from the
    settled fetch to the 1000 ms pause or through [catch] and [finally],
    and from the end of the pause through [finally]. *)
Definition fetchData_start (s : State) : State :=
  set_fetchStatus AwaitingResponse (set_error None (set_loading true s)).

Definition fetchData_settle (res : FetchResult) (s : State) : State :=
  match tryFetch res with
  | inr data =>
      set_fetchStatus AwaitingDelay (setTimeout 1000 (TStore data) s)
  | inl message =>
      let s := set_error (Some (Str.orElse message "Something went wrong")) s in
      let s := set_loading false s in
      set_fetchStatus Finished s
  end.

Definition fetchData_store (data : list Company) (s : State) : State :=
  let s := set_allCompaniesRef (S (allCompaniesRef s)) (set_allCompanies data s) in
  let s := set_loading false s in
  set_fetchStatus Finished s.

(** The callback of the intersection observer, for an intersecting entry. *)
Definition onIntersect (r s : State) : State :=
  if hasMore r then set_page (page s + 1) s else s.

Definition runTimer (a : TimerAct) (s : State) : State :=
  match a with
  | TStore data => fetchData_store data s
  | TLoadingOff => set_loading false s
  | THideEnd => set_showEndMessage false s
  end.

(* ------------------------------------------------------------------ *)
(** ** Rendering *)

(** The dependencies of the two re-running effects. [loadPage] is itself
    re-created exactly when [page], [allCompanies] or [hasMore] changes. *)
Definition pageDeps_eqb (a b : State) : bool :=
  (page a =? page b) && (allCompaniesRef a =? allCompaniesRef b)
  && Bool.eqb (hasMore a) (hasMore b).

Definition endDeps_eqb (a b : State) : bool :=
  Bool.eqb (loading a) (loading b) && Bool.eqb (hasMore a) (hasMore b).

(** One commit: [prev] is the state of the previous render, [cur] the
    state being rendered. Cleanups of the effects whose dependencies
    changed run first, then the effect bodies in source order, all reading
    [cur]. *)
Definition commit (prev cur : State) : State :=
  let runPage := negb (pageDeps_eqb prev cur) in
  let runEnd := negb (endDeps_eqb prev cur) in
  let s := if runEnd then endCleanup cur else cur in
  let s := if runPage then pageEffect cur s else s in
  if runEnd then endEffect cur s else s.

(** Renders until the effects queue no further update. *)
Fixpoint settle (fuel : nat) (prev cur : State) : State :=
  match fuel with
  | 0 => cur
  | S fuel' => settle fuel' cur (commit prev cur)
  end.

(** The commit of the first render runs every effect. *)
Definition mount (s : State) : State :=
  endEffect s (pageEffect s (fetchData_start s)).

(** [{error && <div ...>{error}</div>}]: the text of the error box. *)
Definition errorBox (s : State) : option string :=
  match error s with
  | Some m => if Str.truthy m then Some m else None
  | None => None
  end.

Definition errorTruthy (s : State) : bool :=
  match error s with
  | Some m => Str.truthy m
  | None => false
  end.

(** [!loading && showEndMessage && !error]: the end-of-list paragraph. *)
Definition endMessageVisible (s : State) : bool :=
  negb (loading s) && showEndMessage s && negb (errorTruthy s).

(* ------------------------------------------------------------------ *)
(** ** The component as a transition system *)

Inductive Event : Type :=
| EMount                          (* first commit of [App] *)
| EFetch (res : FetchResult)      (* [fetch] / [res.json()] settles *)
| ETick (d : nat)                 (* [d] ms pass *)
| EFire (i : nat)                 (* the timer with handle [i] runs *)
| EIntersect                      (* the observed last row intersects *)
| ESearch (v : string)            (* [SearchInput] calls [onChange(v)] *)
| ESelectCity (c : Choice)        (* an item of the first dropdown is clicked *)
| ESelectCompany (c : Choice)     (* an item of the second dropdown is clicked *)
| ESort (st : SortingState).      (* the table changes its sorting state *)

Section App.

Variable toLowerCase : string -> string.

(** [filteredData] of a render; the table shows these records (the table
    library orders them and filters them once more by [globalFilter], which
    every record of [filteredData] passes on its owner or company column). *)
Definition filteredDataOf (s : State) : list Company :=
  filteredData toLowerCase (companies s) (globalFilter s)
               (locationFilter s) (companyFilter s).

Definition mounted (s : State) : bool :=
  match fetchStatus s with
  | NotStarted => false
  | _ => true
  end.

Definition isEmpty {A : Type} (l : list A) : bool :=
  match l with
  | [] => true
  | _ :: _ => false
  end.

(** [lastRowRef] attaches an observer only while [loading] is false, to
    the last rendered row; it is re-created with [loading] and [hasMore],
    so the observer's callback reads the current [hasMore]. *)
Definition observing (s : State) : bool :=
  mounted s && negb (loading s) && negb (isEmpty (filteredDataOf s)).

Definition selectable (c : Choice) (locs : list string) : bool :=
  existsb (choice_eqb c) (dropdownItems locs).

(** The state update an event performs before React renders again;
    [None] when the event cannot occur in [s]. *)
Definition handle (e : Event) (s : State) : option State :=
  match e with
  | EMount =>
      match fetchStatus s with
      | NotStarted => Some (mount s)
      | _ => None
      end
  | EFetch res =>
      match fetchStatus s with
      | AwaitingResponse => Some (fetchData_settle res s)
      | _ => None
      end
  | ETick d => Some (set_now (now s + d) s)
  | EFire i =>
      match findTimer i (timers s) with
      | Some t =>
          if due t <=? now s
          then Some (runTimer (act t) (clearTimeout (Some i) s))
          else None
      | None => None
      end
  | EIntersect =>
      if observing s then Some (onIntersect s s) else None
  | ESearch v =>
      if mounted s then Some (set_globalFilter v s) else None
  | ESelectCity c =>
      if mounted s && selectable c (locations (allCompanies s))
      then Some (set_locationFilter (choiceValue c) s) else None
  | ESelectCompany c =>
      if mounted s && selectable c (companyNames (allCompanies s))
      then Some (set_companyFilter (choiceValue c) s) else None
  | ESort st =>
      if mounted s then Some (set_sorting st s) else None
  end.

(** Number of commits after which no effect has anything left to do
    (see [settle_enough]). *)
Definition rounds : nat := 3.

Definition step (e : Event) (s : State) : option State :=
  match handle e s with
  | Some s' => Some (settle rounds s s')
  | None => None
  end.

Fixpoint run (es : list Event) (s : State) : option State :=
  match es with
  | [] => Some s
  | e :: es' =>
      match step e s with
      | Some s' => run es' s'
      | None => None
      end
  end.

Definition reachable (s : State) : Prop :=
  exists es, run es initial = Some s.

End App.

(* ------------------------------------------------------------------ *)
(** ** Vocabulary of the properties *)

(** [t] occurs in [s] as a contiguous run of characters. *)
Definition Substring (t s : string) : Prop :=
  exists pre post, s = (pre ++ t ++ post)%string.

(** The distinct values of [xs], each at the place of its first
    occurrence; [seen] holds the values met so far. *)
Fixpoint distinctFrom (seen xs : list string) : list string :=
  match xs with
  | [] => []
  | x :: xs' =>
      if existsb (String.eqb x) seen then distinctFrom seen xs'
      else x :: distinctFrom (seen ++ [x]) xs'
  end.

Definition distinctInOrder (xs : list string) : list string :=
  distinctFrom [] xs.

(** [l1] is an initial segment of [l2]. *)
Definition Prefix {A : Type} (l1 l2 : list A) : Prop :=
  exists rest, l2 = l1 ++ rest.

(** How often [showEndMessage] turns from false to true along a sequence
    of states. *)
Fixpoint appearances (shown : bool) (trace : list State) : nat :=
  match trace with
  | [] => 0
  | s :: trace' =>
      (if negb shown && showEndMessage s then 1 else 0)
      + appearances (showEndMessage s) trace'
  end.

Section Traces.

Variable toLowerCase : string -> string.

(** The states visited by a run, when every event of it can occur. *)
Fixpoint states (es : list Event) (s : State) : option (list State) :=
  match es with
  | [] => Some []
  | e :: es' =>
      match step toLowerCase e s with
      | Some s' =>
          match states es' s' with
          | Some tr => Some (s' :: tr)
          | None => None
          end
      | None => None
      end
  end.

End Traces.

(* ------------------------------------------------------------------ *)
(** ** The shapes of the states of a session *)

(** The records displayed once [loadPage] has run for page [p]. *)
Definition shownAt (p : nat) (all : list Company) : list Company :=
  firstn (Nat.min (p * pageSize) (length all)) all.

(** Every state a session passes through has one of these shapes. *)
Inductive Phase : State -> Prop :=
| PhInitial nw :
    Phase (mkState [] [] 1 false true None "" "" "" false
             0 [("id", false)] NotStarted nw [] 0 None)
| PhAwaitingResponse gf lf cf srt nw :
    Phase (mkState [] [] 1 true true None gf lf cf false
             0 srt AwaitingResponse nw [] 0 None)
| PhAwaitingDelay gf lf cf srt nw d data :
    Phase (mkState [] [] 1 true true None gf lf cf false
             0 srt AwaitingDelay nw [mkTimer 0 d (TStore data)] 1 None)
| PhFailed m gf lf cf srt nw :
    Str.truthy m = true ->
    Phase (mkState [] [] 1 false true (Some m) gf lf cf false
             0 srt Finished nw [] 0 None)
| PhEmpty gf lf cf srt nw :
    Phase (mkState [] [] 1 false true None gf lf cf false
             1 srt Finished nw [] 1 None)
| PhLoading all p more gf lf cf srt nw i d nt :
    all <> [] -> 1 <= p -> (p - 1) * pageSize < length all ->
    (Nat.min (p * pageSize) (length all) <? length all) = more ->
    Phase (mkState all (shownAt p all) p true more None gf lf cf false
             1 srt Finished nw [mkTimer i d TLoadingOff] nt None)
| PhIdle all p gf lf cf srt nw nt :
    all <> [] -> 1 <= p -> p * pageSize < length all ->
    Phase (mkState all (shownAt p all) p false true None gf lf cf false
             1 srt Finished nw [] nt None)
| PhEndShown all p gf lf cf srt nw i d nt :
    all <> [] -> 1 <= p -> (p - 1) * pageSize < length all ->
    length all <= p * pageSize ->
    Phase (mkState all (shownAt p all) p false false None gf lf cf true
             1 srt Finished nw [mkTimer i d THideEnd] nt (Some i))
| PhEndHidden all p gf lf cf srt nw i nt :
    all <> [] -> 1 <= p -> (p - 1) * pageSize < length all ->
    length all <= p * pageSize ->
    Phase (mkState all (shownAt p all) p false false None gf lf cf false
             1 srt Finished nw [] nt (Some i)).

(** 1 once the end of the list is on display, 0 before. *)
Definition ended (s : State) : nat :=
  if negb (hasMore s) && negb (loading s) then 1 else 0.


(** What one step does to a state of a session. *)
Definition StepOk (s : State) (e : Event) (s' : State) : Prop :=
  Phase s'
  /\ (if negb (showEndMessage s) && showEndMessage s' then 1 else 0)
     + ended s = ended s'
  /\ (showEndMessage s = false -> showEndMessage s' = true ->
      exists i, timers s' = [mkTimer i (now s' + 3000) THideEnd])
  /\ (showEndMessage s = true -> showEndMessage s' = false ->
      exists i d, timers s = [mkTimer i d THideEnd] /\ e = EFire i /\ d <= now s)
  /\ (showEndMessage s = true -> showEndMessage s' = true ->
      timers s' = timers s).


(* ------------------------------------------------------------------ *)
(** ** Properties of states and of fetches *)

(** The displayed list is an initial segment of the dataset, the whole of
    it once [hasMore] is false. *)
Definition Consistent (s : State) : Prop :=
  Prefix (companies s) (allCompanies s)
  /\ (hasMore s = false -> companies s = allCompanies s).

(** What an execution of [loadPage] establishes. *)
Definition PrefixShown (s : State) : Prop :=
  Prefix (companies s) (allCompanies s)
  /\ (hasMore s = true <-> length (companies s) < length (allCompanies s)).

Section Renders.

Variable toLowerCase : string -> string.

(** The states React renders in the course of one step: the state the
    event handler leaves, then the state after each commit that follows. *)
Definition renders (e : Event) (s : State) : list State :=
  match handle toLowerCase e s with
  | Some s1 =>
      let c1 := commit s s1 in
      [s1; c1; commit s1 c1]
  | None => []
  end.

End Renders.

(** [loadPage] takes effect in a commit exactly when its effect re-runs
    on a non-empty dataset with [hasMore] true. *)
Definition pageRuns (prev cur : State) : bool :=
  negb (pageDeps_eqb prev cur)
  && negb (length (allCompanies cur) =? 0) && hasMore cur.


(** The ways a fetch can fail. *)
Definition NetworkError (res : FetchResult) : Prop :=
  exists message, res = Rejects message.

Definition NonSuccess (res : FetchResult) : Prop :=
  exists r, res = Resolves r /\ ok r = false.

Definition NotJson (res : FetchResult) : Prop :=
  exists r, res = Resolves r /\ isJson (contentType r) = false.

Definition BodyRejected (res : FetchResult) : Prop :=
  exists r message, res = Resolves r /\ json r = inl message.

(** [fetchData] takes its [catch] branch. *)
Definition FetchFails (res : FetchResult) : Prop :=
  exists message, tryFetch res = inl message.

Definition isMount (e : Event) : bool :=
  match e with EMount => true | _ => false end.


(* ================================================================== *)
(** * A session on a dataset of 25 records *)

Module Session.

Definition cityOf (n : nat) : string :=
  match n mod 3 with
  | 0 => "Paris"
  | 1 => "Berlin"
  | _ => "paris"
  end.

Definition companyOf (n : nat) : string :=
  match n mod 4 with
  | 0 => "Acme"
  | 1 => "Globex"
  | 2 => "Initech"
  | _ => "Umbrella"
  end.

Definition ownerOf (n : nat) : string :=
  String (ascii_of_nat (65 + n)) "lice".

Definition record (n : nat) : Company :=
  mkCompany (ownerOf n) (companyOf n) (cityOf n) "info@example.com".

Definition dataset : list Company := map record (seq 0 25).

(** A successful response, a 404 answered with the HTML of the page, and
    a response labelled as JSON whose body does not parse. *)
Definition okResponse : FetchResult :=
  Resolves (mkResponse true (Some "application/json; charset=utf-8") (inr dataset)).

Definition notFound : FetchResult :=
  Resolves (mkResponse false (Some "text/html") (inl "Unexpected token '<'")).

Definition brokenBody : FetchResult :=
  Resolves (mkResponse true (Some "application/json") (inl "Unexpected end of JSON input")).

(** The state a sequence of events leads to. *)
Definition after (es : list Event) : State :=
  match run Str.lower es initial with
  | Some s => s
  | None => initial
  end.

Definition firstPage : list Event :=
  [EMount; EFetch okResponse; ETick 1000; EFire 0; ETick 1000; EFire 1].

Definition lastPage : list Event :=
  firstPage ++ [EIntersect; ETick 1000; EFire 2;
                EIntersect; ETick 1000; EFire 3].

Definition sMounted : State := after [EMount].
Definition sFirstPage : State := after firstPage.
Definition sEndShown : State := after lastPage.
Definition sEndHidden : State := after (lastPage ++ [ETick 3000; EFire 4]).
Definition sFailed : State := after [EMount; EFetch notFound].

End Session.

(* ------------------------------------------------------------------ *)
(** ** The search box, the dropdown and the table *)

(** [SearchInput]: the clear button is rendered for a non-empty [value];
    [Some v] is the argument its click passes to [onChange]. *)
Module SearchInput.

Definition clearButton (value : string) : option string :=
  if Str.truthy value then Some "" else None.

End SearchInput.

(** The events that write one of the three filters. *)
Definition changesFilter (e : Event) : bool :=
  match e with
  | ESearch _ | ESelectCity _ | ESelectCompany _ => true
  | _ => false
  end.

(** A cell value: the ID column yields numbers, the others strings. *)
Inductive Cell : Type :=
| CNumber (n : nat)
| CText (t : string).

(** A column definition; [enableSorting] is absent on two of them. *)
Record Column : Type := mkColumn {
  header : string;
  accessorFn : Company -> nat -> Cell;
  enableSorting : option bool
}.

Definition columns : list Column :=
  [ mkColumn "ID" (fun _row i => CNumber (i + 1)) None;
    mkColumn "Name" (fun row _ => CText (owner row)) (Some true);
    mkColumn "Company" (fun row _ => CText (company row)) (Some true);
    mkColumn "Location" (fun row _ => CText (city row)) (Some true);
    mkColumn "Email" (fun row _ => CText (email row)) None ].

(** The values of the rows of [data]: the table library calls every
    accessor with a record of [data] and the index of the record in
    [data]. *)
Fixpoint rowValuesFrom (i : nat) (data : list Company) : list (list Cell) :=
  match data with
  | [] => []
  | row :: rest =>
      map (fun col => accessorFn col row i) columns :: rowValuesFrom (S i) rest
  end.

Definition rowValues (data : list Company) : list (list Cell) :=
  rowValuesFrom 0 data.

(** [SkeletonRow]: the keys of its cells, one per column. *)
Definition SkeletonRow (cols : list Column) : list nat :=
  seq 0 (length cols).

Section View.

Variable toLowerCase : string -> string.

(** [loading && Array.from({ length: 10 }).map(...)]. *)
Definition skeletonRows (s : State) : list (list nat) :=
  if loading s then map (fun _ => SkeletonRow columns) (seq 0 10) else [].

(** [filteredData.length === 0 && !loading && !error]: the row that says
    no company was found. *)
Definition emptyNotice (s : State) : bool :=
  (length (filteredDataOf toLowerCase s) =? 0)
  && negb (loading s) && negb (errorTruthy s).

End View.

(** The dropdown component by itself. *)

Module Dropdown.

Inductive Ev : Type :=
| Toggle                      (* click on the button *)
| ClickItem (c : Choice)      (* click on an item of the list *)
| MouseDown (outside : bool). (* [mousedown] somewhere in the document *)

(** The three callbacks: each gives the new value of [open], and
    [handleSelect] the argument it passes to [onChange]. *)
Definition toggleDropdown (open : bool) : bool := negb open.

Definition handleSelect (loc : string) : bool * option string :=
  (false, Some loc).

Definition handleClickOutside (outside open : bool) : bool :=
  if outside then false else open.

(** The new value of [open] and the argument of [onChange] when it is
    called; the list, hence its items, is rendered only while [open]. *)
Definition dispatch (locs : list string) (open : bool) (e : Ev)
  : option (bool * option string) :=
  match e with
  | Toggle => Some (toggleDropdown open, None)
  | ClickItem c =>
      if open && selectable c locs
      then Some (handleSelect (choiceValue c))
      else None
  | MouseDown outside => Some (handleClickOutside outside open, None)
  end.

(** [open] after a sequence of events, with the [onChange] calls made. *)
Fixpoint play (locs : list string) (open : bool) (es : list Ev)
  : option (bool * list string) :=
  match es with
  | [] => Some (open, [])
  | e :: es' =>
      match dispatch locs open e with
      | Some (open', call) =>
          match play locs open' es' with
          | Some (open'', calls) =>
              Some (open'', match call with
                            | Some v => v :: calls
                            | None => calls
                            end)
          | None => None
          end
      | None => None
      end
  end.

Definition isToggle (e : Ev) : bool :=
  match e with Toggle => true | _ => false end.

(** [value || optionPlaceholder]: the text of the button. *)
Definition label (value optionPlaceholder : string) : string :=
  Str.orElse value optionPlaceholder.

(** 1 for an open list, 0 for a closed one. *)
Definition weight (open : bool) : nat := if open then 1 else 0.

End Dropdown.

(** The buttons of the two dropdowns as [App] renders them. *)
Definition cityLabel (s : State) : string :=
  Dropdown.label (locationFilter s) "All Location".

Definition companyLabel (s : State) : string :=
  Dropdown.label (companyFilter s) "All Companies".

(* ------------------------------------------------------------------ *)
(** ** Loading periods *)

(** What one step does to the loading indicator. *)
Definition LoadOk (s : State) (e : Event) (s' : State) : Prop :=
  (companies s' = companies s \/
   loading s' = true /\
   exists i, timers s' = [mkTimer i (now s' + 1000) TLoadingOff])
  /\ (fetchStatus s = Finished -> loading s = true -> loading s' = false ->
      exists i d, timers s = [mkTimer i d TLoadingOff] /\ e = EFire i /\ d <= now s)
  /\ (fetchStatus s = Finished -> loading s = true -> loading s' = true ->
      timers s' = timers s)
  /\ (fetchStatus s = Finished -> loading s = false -> loading s' = true ->
      e = EIntersect /\ hasMore s = true).

(** The time at which the pending timer is due; the current time when no
    timer is pending. *)
Definition pace (s : State) : nat :=
  match timers s with
  | t :: _ => due t
  | [] => now s
  end.

(** Each page costs a second: a dataset on display at page [p] has been
    waited for through the pause of [fetchData] and [p] loading periods. *)
Definition Timed (s : State) : Prop :=
  match fetchStatus s with
  | AwaitingDelay => 1000 <= pace s
  | Finished =>
      allCompanies s = [] \/
      (page s + 1) * 1000 <= (if loading s then pace s else now s)
  | _ => True
  end.

(** Further states and events of the session of [Session]. *)
Module Scenes.

Definition secondPage : list Event := [EIntersect; ETick 1000; EFire 2].

Definition sSecondPage : State :=
  Session.after (Session.firstPage ++ secondPage).

(** A search string that none of the ten displayed records matches. *)
Definition sNoRows : State :=
  Session.after (Session.firstPage ++ [ESearch "zed"]).

Definition sLoading : State :=
  Session.after (Session.firstPage ++ [EIntersect]).

Definition clicks : list Dropdown.Ev :=
  [Dropdown.Toggle; Dropdown.ClickItem (Item "Paris");
   Dropdown.Toggle; Dropdown.MouseDown true].

End Scenes.

(* ================================================================== *)
(** * Facts *)

Module StrFacts.
Import Str.

Lemma prefix_app (t s : string) :
  String.prefix t s = true <-> exists post, s = (t ++ post)%string.
Proof.
  revert s; induction t as [|c t IH]; intros s; simpl.
  - split; [intros _; now exists s | intros _; destruct s; reflexivity].
  - destruct s as [|d s]; simpl.
    + split; [discriminate | intros [post H]; discriminate].
    + destruct (Ascii.ascii_dec c d) as [->|ne].
      * rewrite IH. split; intros [post H]; exists post.
        -- now rewrite H.
        -- now injection H.
      * split; [discriminate|].
        intros [post H]. injection H as H1 H2. now symmetry in H1.
Qed.

Lemma includes_nil (t : string) :
  includes "" t = String.prefix t "" || false.
Proof. reflexivity. Qed.

Lemma includes_cons (c : ascii) (s t : string) :
  includes (String c s) t = String.prefix t (String c s) || includes s t.
Proof. reflexivity. Qed.

(** [includes] decides the substring relation. *)
Lemma includes_spec (s t : string) :
  includes s t = true <-> exists pre post, s = (pre ++ t ++ post)%string.
Proof.
  induction s as [|c s IH].
  - rewrite includes_nil, orb_false_r, prefix_app. split.
    + intros [post H]. now exists "", post.
    + intros [pre [post H]]. destruct pre; simpl in H.
      * now exists post.
      * discriminate.
  - rewrite includes_cons, orb_true_iff, prefix_app, IH. split.
    + intros [[post H] | [pre [post H]]].
      * now exists "", post.
      * exists (String c pre), post. simpl. now rewrite H.
    + intros [pre [post H]]. destruct pre as [|d pre]; simpl in H.
      * left. now exists post.
      * right. injection H as _ H. now exists pre, post.
Qed.

Lemma includes_empty (s : string) : includes s "" = true.
Proof. destruct s; reflexivity. Qed.

Lemma truthy_false (s : string) : truthy s = false <-> s = "".
Proof. destruct s; simpl; split; congruence. Qed.

Lemma truthy_true (s : string) : truthy s = true <-> s <> "".
Proof. destruct s; simpl; split; congruence. Qed.

Lemma orElse_truthy (a b : string) : truthy b = true -> truthy (orElse a b) = true.
Proof. unfold orElse. destruct (truthy a) eqn:E; auto. Qed.

End StrFacts.

(* ------------------------------------------------------------------ *)
(** ** The filter pipeline *)

Lemma matchesCity_spec (locationFilter : string) (c : Company) :
  matchesCity locationFilter c = true <->
  locationFilter = "" \/ city c = locationFilter.
Proof.
  unfold matchesCity. destruct (Str.truthy locationFilter) eqn:T.
  - apply StrFacts.truthy_true in T. rewrite String.eqb_eq. tauto.
  - apply StrFacts.truthy_false in T. tauto.
Qed.

Lemma matchesCompany_spec (companyFilter : string) (c : Company) :
  matchesCompany companyFilter c = true <->
  companyFilter = "" \/ company c = companyFilter.
Proof.
  unfold matchesCompany. destruct (Str.truthy companyFilter) eqn:T.
  - apply StrFacts.truthy_true in T. rewrite String.eqb_eq. tauto.
  - apply StrFacts.truthy_false in T. tauto.
Qed.

Lemma filter_all {A : Type} (f : A -> bool) (l : list A) :
  (forall x, In x l -> f x = true) -> filter f l = l.
Proof.
  induction l as [|a l IH]; simpl; intros H; [reflexivity|].
  rewrite (H a (or_introl eq_refl)). f_equal. apply IH. auto.
Qed.

Section PipelineFacts.

Variable toLowerCase : string -> string.

Lemma matchesSearch_spec (filterText : string) (c : Company) :
  matchesSearch toLowerCase filterText c = true <->
  Substring filterText (toLowerCase (owner c)) \/
  Substring filterText (toLowerCase (company c)).
Proof.
  unfold matchesSearch, Substring.
  now rewrite orb_true_iff, !StrFacts.includes_spec.
Qed.

Lemma filteredData_In (cs : list Company) (g loc comp : string) (c : Company) :
  In c (filteredData toLowerCase cs g loc comp) <->
  In c cs /\ matchesSearch toLowerCase (toLowerCase g) c = true
  /\ matchesCity loc c = true /\ matchesCompany comp c = true.
Proof.
  unfold filteredData. rewrite filter_In, !andb_true_iff. tauto.
Qed.

Lemma filteredData_no_filters (cs : list Company) (g : string) :
  filteredData toLowerCase cs g "" "" = filter (matchesSearch toLowerCase (toLowerCase g)) cs.
Proof.
  unfold filteredData. apply filter_ext. intros c.
  unfold matchesCity, matchesCompany. simpl. now rewrite !andb_true_r.
Qed.

(** C1. The text condition of [filteredData] holds of a record exactly
    when the lower-cased search string occurs in the lower-cased owner or
    in the lower-cased company; with both dropdowns unset the records kept
    are exactly those; the condition never reads [city] or [email]. *)
Theorem text_filter_is_substring_match
    (cs : list Company) (search : string) (c : Company) :
  (matchesSearch toLowerCase (toLowerCase search) c = true <->
     Substring (toLowerCase search) (toLowerCase (owner c)) \/
     Substring (toLowerCase search) (toLowerCase (company c)))
  /\ (In c (filteredData toLowerCase cs search "" "") <->
        In c cs /\
        (Substring (toLowerCase search) (toLowerCase (owner c)) \/
         Substring (toLowerCase search) (toLowerCase (company c))))
  /\ filteredData toLowerCase cs search "" "" = filter (matchesSearch toLowerCase (toLowerCase search)) cs
  /\ (forall city' email',
        matchesSearch toLowerCase (toLowerCase search)
          (mkCompany (owner c) (company c) city' email')
        = matchesSearch toLowerCase (toLowerCase search) c).
Proof.
  split; [apply matchesSearch_spec|].
  split.
  - rewrite filteredData_no_filters, filter_In, matchesSearch_spec. tauto.
  - split; [apply filteredData_no_filters | reflexivity].
Qed.

(** C2. A record is kept exactly when it passes the text condition, its
    city equals a non-empty city filter, and its company equals a
    non-empty company filter; an empty filter admits every record. *)
Theorem dropdown_filters_are_exact_match
    (cs : list Company) (search loc comp : string) (c : Company) :
  (In c (filteredData toLowerCase cs search loc comp) <->
     In c cs
     /\ matchesSearch toLowerCase (toLowerCase search) c = true
     /\ (loc = "" \/ city c = loc)
     /\ (comp = "" \/ company c = comp))
  /\ matchesCity "" c = true
  /\ matchesCompany "" c = true
  /\ (loc <> "" -> (matchesCity loc c = true <-> city c = loc))
  /\ (comp <> "" -> (matchesCompany comp c = true <-> company c = comp)).
Proof.
  split.
  - now rewrite filteredData_In, matchesCity_spec, matchesCompany_spec.
  - repeat split; try reflexivity.
    + rewrite matchesCity_spec. tauto.
    + rewrite matchesCity_spec. tauto.
    + rewrite matchesCompany_spec. tauto.
    + rewrite matchesCompany_spec. tauto.
Qed.

(** C9. With an empty search string and both dropdowns unset,
    [filteredData] is the displayed list itself. *)
Theorem no_filter_is_identity (s : State) :
  toLowerCase "" = "" ->
  globalFilter s = "" -> locationFilter s = "" -> companyFilter s = "" ->
  filteredDataOf toLowerCase s = companies s.
Proof.
  intros L G Lc C. unfold filteredDataOf. rewrite G, Lc, C.
  rewrite filteredData_no_filters, L. apply filter_all. intros c _.
  unfold matchesSearch. now rewrite StrFacts.includes_empty.
Qed.

End PipelineFacts.

(* ------------------------------------------------------------------ *)
(** ** The dropdown options *)

Module JsSetFacts.
Import JsSet.

Lemma has_In (s : list string) (x : string) : has s x = true <-> In x s.
Proof.
  unfold has. rewrite existsb_exists. split.
  - intros [y [Hy E]]. apply String.eqb_eq in E. now subst.
  - intros H. exists x. split; [assumption | apply String.eqb_refl].
Qed.

Lemma fold_add (xs acc : list string) :
  fold_left add xs acc = acc ++ distinctFrom acc xs.
Proof.
  revert acc. induction xs as [|x xs IH]; intros acc; simpl.
  - now rewrite app_nil_r.
  - unfold add at 2. fold (has acc x). destruct (has acc x).
    + apply IH.
    + rewrite IH, <- app_assoc. reflexivity.
Qed.

Lemma of_list_distinct (xs : list string) :
  of_list xs = distinctInOrder xs.
Proof. unfold of_list. now rewrite fold_add. Qed.

Lemma distinctFrom_In (xs seen : list string) (x : string) :
  In x (distinctFrom seen xs) <-> In x xs /\ ~ In x seen.
Proof.
  revert seen. induction xs as [|y xs IH]; intros seen; simpl; [tauto|].
  fold (has seen y). destruct (has seen y) eqn:E.
  - apply has_In in E. rewrite IH. split.
    + tauto.
    + intros [[->|H] N]; [contradiction | tauto].
  - assert (N : ~ In y seen) by (rewrite <- has_In; congruence).
    simpl. rewrite IH, in_app_iff. simpl. split.
    + intros [->|[H K]]; [tauto|]. split; [tauto|]. tauto.
    + intros [[->|H] K]; [tauto|].
      destruct (String.string_dec y x) as [->|ne]; [tauto|]. right. tauto.
Qed.

Lemma distinctFrom_NoDup (xs seen : list string) :
  NoDup (distinctFrom seen xs).
Proof.
  revert seen. induction xs as [|y xs IH]; intros seen; simpl; [constructor|].
  destruct (existsb (String.eqb y) seen); [apply IH|].
  constructor; [|apply IH].
  rewrite distinctFrom_In, in_app_iff. simpl. tauto.
Qed.

Lemma of_list_In (xs : list string) (x : string) :
  In x (of_list xs) <-> In x xs.
Proof.
  rewrite of_list_distinct. unfold distinctInOrder.
  rewrite distinctFrom_In. simpl. tauto.
Qed.

Lemma of_list_NoDup (xs : list string) : NoDup (of_list xs).
Proof. rewrite of_list_distinct. apply distinctFrom_NoDup. Qed.

End JsSetFacts.

Lemma choice_eqb_eq (a b : Choice) : choice_eqb a b = true <-> a = b.
Proof.
  destruct a, b; simpl; try rewrite String.eqb_eq; split; congruence.
Qed.

Lemma selectable_spec (c : Choice) (locs : list string) :
  selectable c locs = true <-> c = Placeholder \/ exists v, c = Item v /\ In v locs.
Proof.
  unfold selectable, dropdownItems. rewrite existsb_exists. split.
  - intros [d [[<-|H] E]]; apply choice_eqb_eq in E; subst; [now left|].
    apply in_map_iff in H as [v [<- Hv]]. right. now exists v.
  - intros [->|[v [-> Hv]]].
    + exists Placeholder. simpl. auto.
    + exists (Item v). split; [right; now apply in_map | now apply choice_eqb_eq].
Qed.

(* ------------------------------------------------------------------ *)
(** ** Rendering: what a commit can change *)

Ltac case_if :=
  match goal with
  | |- context [if ?b then _ else _] => destruct b eqn:?
  | |- context [match ?o with Some _ => _ | None => _ end] => destruct o eqn:?
  end.

Ltac unfold_effects :=
  unfold commit, endCleanup, pageEffect, loadPage, endEffect,
         setTimeout, clearTimeout.

Ltac frame_commit :=
  intros; unfold_effects; cbn; repeat case_if; reflexivity.

Section CommitFrame.

Variables prev cur : State.

Lemma commit_allCompanies : allCompanies (commit prev cur) = allCompanies cur.
Proof. frame_commit. Qed.

Lemma commit_allCompaniesRef : allCompaniesRef (commit prev cur) = allCompaniesRef cur.
Proof. frame_commit. Qed.

Lemma commit_page : page (commit prev cur) = page cur.
Proof. frame_commit. Qed.

Lemma commit_error : error (commit prev cur) = error cur.
Proof. frame_commit. Qed.

Lemma commit_globalFilter : globalFilter (commit prev cur) = globalFilter cur.
Proof. frame_commit. Qed.

Lemma commit_locationFilter : locationFilter (commit prev cur) = locationFilter cur.
Proof. frame_commit. Qed.

Lemma commit_companyFilter : companyFilter (commit prev cur) = companyFilter cur.
Proof. frame_commit. Qed.

Lemma commit_sorting : sorting (commit prev cur) = sorting cur.
Proof. frame_commit. Qed.

Lemma commit_fetchStatus : fetchStatus (commit prev cur) = fetchStatus cur.
Proof. frame_commit. Qed.

Lemma commit_now : now (commit prev cur) = now cur.
Proof. frame_commit. Qed.

(** A commit in which no dependency changed runs no effect. *)
Lemma commit_quiet :
  pageDeps_eqb prev cur = true -> endDeps_eqb prev cur = true ->
  commit prev cur = cur.
Proof. intros P E. unfold commit. now rewrite P, E. Qed.

End CommitFrame.

Lemma pageDeps_eqb_refl (s : State) : pageDeps_eqb s s = true.
Proof.
  unfold pageDeps_eqb. now rewrite !Nat.eqb_refl, Bool.eqb_reflx.
Qed.

Lemma endDeps_eqb_refl (s : State) : endDeps_eqb s s = true.
Proof. unfold endDeps_eqb. now rewrite !Bool.eqb_reflx. Qed.

Lemma settle_fixed (n : nat) (s : State) : settle n s s = s.
Proof.
  induction n as [|n IH]; simpl; [reflexivity|].
  rewrite commit_quiet; auto using pageDeps_eqb_refl, endDeps_eqb_refl.
Qed.

Lemma settle_quiet (n : nat) (prev cur : State) :
  pageDeps_eqb prev cur = true -> endDeps_eqb prev cur = true ->
  settle n prev cur = cur.
Proof.
  intros P E. destruct n as [|n]; simpl; [reflexivity|].
  rewrite commit_quiet by assumption. apply settle_fixed.
Qed.

(* ------------------------------------------------------------------ *)
(** ** Evaluating a step on a state of known shape *)

(** Normalises nested field updates and the effect bodies whose tests are
    decided by the fields; arguments are evaluated first. *)
Ltac norm :=
  cbv beta iota zeta delta
      [allCompanies companies page loading hasMore error globalFilter
       locationFilter companyFilter showEndMessage allCompaniesRef sorting
       fetchStatus now timers nextTid endTimer
       set_allCompanies set_companies set_page set_loading set_hasMore
       set_error set_globalFilter set_locationFilter set_companyFilter
       set_showEndMessage set_allCompaniesRef set_sorting set_fetchStatus
       set_now set_timers set_nextTid set_endTimer tid due act
       commit pageDeps_eqb endDeps_eqb endCleanup endEffect
       setTimeout clearTimeout mount fetchData_start fetchData_store
       onIntersect runTimer findTimer find filter
       negb andb orb Bool.eqb app mounted].

(** Reduces a field read off a chain of field updates. *)
Ltac projs :=
  cbn [allCompanies companies page loading hasMore error globalFilter
       locationFilter companyFilter showEndMessage allCompaniesRef sorting
       fetchStatus now timers nextTid endTimer
       set_allCompanies set_companies set_page set_loading set_hasMore
       set_error set_globalFilter set_locationFilter set_companyFilter
       set_showEndMessage set_allCompaniesRef set_sorting set_fetchStatus
       set_now set_timers set_nextTid set_endTimer setTimeout].

Lemma settle_S (n : nat) (p c : State) :
  settle (S n) p c = settle n c (commit p c).
Proof. reflexivity. Qed.

Lemma eqb_add1 (n : nat) : (n =? n + 1) = false.
Proof. apply Nat.eqb_neq. lia. Qed.

Lemma length_eqb0 {A : Type} {l : list A} :
  l <> [] -> (length l =? 0) = false.
Proof. destruct l; [congruence | reflexivity]. Qed.

Lemma pageEffect_empty (r s : State) :
  allCompanies r = [] -> pageEffect r s = s.
Proof. unfold pageEffect. now intros ->. Qed.

Lemma pageEffect_done (r s : State) :
  hasMore r = false -> pageEffect r s = s.
Proof.
  unfold pageEffect, loadPage. intros ->. rewrite orb_true_r.
  now destruct (negb _).
Qed.

Lemma pageEffect_run (r s : State) :
  allCompanies r <> [] -> hasMore r = true ->
  pageEffect r s =
  setTimeout 1000 TLoadingOff
    (set_loading true
       (set_hasMore (Nat.min (page r * pageSize) (length (allCompanies r))
                     <? length (allCompanies r))
          (set_companies (shownAt (page r) (allCompanies r)) s))).
Proof.
  intros Hne Hm. unfold pageEffect, loadPage.
  rewrite (length_eqb0 Hne), Hm. reflexivity.
Qed.

Ltac eval_page :=
  first [ rewrite pageEffect_empty by reflexivity
        | rewrite pageEffect_done by reflexivity
        | rewrite pageEffect_run
            by (norm; first [assumption | discriminate | reflexivity])
        | idtac ].

Ltac eval_commit :=
  norm; rewrite ?Nat.eqb_refl, ?eqb_add1; norm; eval_page; norm.

Ltac quiet :=
  rewrite settle_quiet by
    (unfold pageDeps_eqb, endDeps_eqb; norm;
     rewrite ?Nat.eqb_refl, ?Bool.eqb_reflx; reflexivity).

(** Runs the timer an [EFire] names, when it is the pending one and due. *)
Ltac fire :=
  norm;
  match goal with
  | |- context [?a =? ?b] =>
      let E := fresh "Eid" in
      destruct (a =? b) eqn:E;
      [apply Nat.eqb_eq in E; subst | discriminate]
  end;
  norm;
  match goal with
  | |- context [?a <=? ?b] =>
      let E := fresh "Edue" in destruct (a <=? b) eqn:E; [|discriminate]
  end;
  norm; rewrite ?Nat.eqb_refl; norm.

Ltac arith :=
  repeat match goal with
  | H : (_ <? _) = true |- _ => apply Nat.ltb_lt in H
  | H : (_ <? _) = false |- _ => apply Nat.ltb_ge in H
  | H : (_ <=? _) = true |- _ => apply Nat.leb_le in H
  end;
  unfold pageSize in *; cbn [length] in *; lia.

Section Steps.

Variable toLowerCase : string -> string.

Lemma observing_nil all p lo hm err gf lf cf sh ref srt fs nw tm nt et :
  observing toLowerCase
    (mkState all [] p lo hm err gf lf cf sh ref srt fs nw tm nt et) = false.
Proof.
  unfold observing, filteredDataOf, filteredData. cbn.
  now rewrite andb_false_r.
Qed.

Ltac facts :=
  unfold StepOk, ended; norm; cbn [Nat.add];
  repeat apply conj;
  try reflexivity; try discriminate;
  try (intros _ _; reflexivity);
  try (now constructor).

Ltac finishOk := intros [= <-]; norm; facts.

Lemma step_Phase (s : State) (e : Event) (s' : State) :
  Phase s -> step toLowerCase e s = Some s' -> StepOk s e s'.
Proof.
  intros Hph. destruct Hph;
  try match goal with H : (_ <? _) = ?hm |- _ => is_var hm; destruct hm end;
  destruct e; unfold step, handle; norm;
  rewrite ?observing_nil;
  try discriminate.
  all: try (quiet; finishOk).
  all: try match goal with
           | |- context [selectable ?c ?l] =>
               destruct (selectable c l); [|discriminate]
           end.
  all: try match goal with
           | |- context [observing ?c ?l] =>
               destruct (observing c l) eqn:Hobs; [|discriminate]
           end.
  all: try (quiet; finishOk).
  - (* mount *)
    norm. eval_page. norm. unfold rounds. rewrite settle_S. eval_commit.
    quiet. finishOk.
  - (* the fetch settles *)
    unfold fetchData_settle. destruct (tryFetch res) as [m|data] eqn:Et.
    + norm. unfold rounds. rewrite settle_S. eval_commit. quiet.
      intros [= <-]; facts.
      constructor. apply StrFacts.orElse_truthy. reflexivity.
    + norm. quiet. finishOk.
  - (* the pause of fetchData ends *)
    fire. unfold rounds. rewrite settle_S.
    destruct data as [|c0 data].
    + eval_commit. quiet. finishOk.
    + eval_commit.
      match goal with
      | |- context [Nat.min ?a ?b <? ?c] => destruct (Nat.min a b <? c) eqn:Hm
      end; rewrite settle_S; eval_commit; quiet;
      intros [= <-]; facts;
      (constructor; [discriminate | lia | arith | assumption]).
  - (* a page has been loading for a second, more records remain *)
    fire; unfold rounds; rewrite settle_S; eval_commit; quiet;
    intros [= <-]; facts.
    constructor; try assumption; arith.
  - (* a page has been loading for a second, it was the last one *)
    fire; unfold rounds; rewrite settle_S; eval_commit; quiet;
    intros [= <-]; facts.
    + constructor; try assumption; arith.
    + intros _ _; now eexists.
  - (* the last row scrolls into view *)
    norm. unfold rounds. rewrite settle_S. eval_commit.
    match goal with
    | |- context [Nat.min ?a ?b <? ?c] => destruct (Nat.min a b <? c) eqn:Hm
    end; rewrite settle_S; eval_commit; quiet;
    intros [= <-]; facts;
    (constructor; [assumption | lia | arith | assumption]).
  - (* the end message has been up for three seconds *)
    fire. quiet. intros [= <-]; norm; facts.
    intros _ _. eexists _, _. repeat split. arith.
Qed.

End Steps.

(* ------------------------------------------------------------------ *)
(** ** What a step leaves alone *)

Section SettleFrame.

Variable n : nat.

Lemma settle_allCompanies (p c : State) :
  allCompanies (settle n p c) = allCompanies c.
Proof.
  revert p c. induction n as [|k IH]; intros p c; simpl; [reflexivity|].
  now rewrite IH, commit_allCompanies.
Qed.

Lemma settle_page (p c : State) : page (settle n p c) = page c.
Proof.
  revert p c. induction n as [|k IH]; intros p c; simpl; [reflexivity|].
  now rewrite IH, commit_page.
Qed.

Lemma settle_error (p c : State) : error (settle n p c) = error c.
Proof.
  revert p c. induction n as [|k IH]; intros p c; simpl; [reflexivity|].
  now rewrite IH, commit_error.
Qed.

Lemma settle_fetchStatus (p c : State) :
  fetchStatus (settle n p c) = fetchStatus c.
Proof.
  revert p c. induction n as [|k IH]; intros p c; simpl; [reflexivity|].
  now rewrite IH, commit_fetchStatus.
Qed.

Lemma settle_now (p c : State) : now (settle n p c) = now c.
Proof.
  revert p c. induction n as [|k IH]; intros p c; simpl; [reflexivity|].
  now rewrite IH, commit_now.
Qed.

Lemma settle_globalFilter (p c : State) :
  globalFilter (settle n p c) = globalFilter c.
Proof.
  revert p c. induction n as [|k IH]; intros p c; simpl; [reflexivity|].
  now rewrite IH, commit_globalFilter.
Qed.

Lemma settle_locationFilter (p c : State) :
  locationFilter (settle n p c) = locationFilter c.
Proof.
  revert p c. induction n as [|k IH]; intros p c; simpl; [reflexivity|].
  now rewrite IH, commit_locationFilter.
Qed.

Lemma settle_companyFilter (p c : State) :
  companyFilter (settle n p c) = companyFilter c.
Proof.
  revert p c. induction n as [|k IH]; intros p c; simpl; [reflexivity|].
  now rewrite IH, commit_companyFilter.
Qed.

End SettleFrame.

Lemma mount_frame (s : State) :
  allCompanies (mount s) = allCompanies s /\ now (mount s) = now s
  /\ page (mount s) = page s.
Proof.
  unfold mount, endEffect, pageEffect, loadPage, fetchData_start, setTimeout.
  repeat split; cbn; repeat case_if; reflexivity.
Qed.

Lemma fetchData_settle_frame (res : FetchResult) (s : State) :
  allCompanies (fetchData_settle res s) = allCompanies s
  /\ now (fetchData_settle res s) = now s
  /\ page (fetchData_settle res s) = page s.
Proof.
  unfold fetchData_settle. destruct (tryFetch res); repeat split; reflexivity.
Qed.

Section StepFrame.

Variable toLowerCase : string -> string.

(** The handler of [EFire i] runs one of the pending timers. *)
Lemma handle_fire (i : nat) (s s1 : State) :
  handle toLowerCase (EFire i) s = Some s1 ->
  exists t, In t (timers s) /\ tid t = i /\ due t <= now s
            /\ s1 = runTimer (act t) (clearTimeout (Some i) s).
Proof.
  unfold handle. destruct (findTimer i (timers s)) as [t|] eqn:F; [|discriminate].
  destruct (due t <=? now s) eqn:D; [|discriminate]. intros [= <-].
  unfold findTimer in F. apply find_some in F as [Hin Hid].
  exists t. repeat split; auto.
  - now apply Nat.eqb_eq.
  - now apply Nat.leb_le.
Qed.

Lemma step_inv (e : Event) (s s' : State) :
  step toLowerCase e s = Some s' ->
  exists s1, handle toLowerCase e s = Some s1 /\ s' = settle rounds s s1.
Proof.
  unfold step. destruct (handle toLowerCase e s) as [s1|]; [|discriminate].
  intros E. exists s1. split; congruence.
Qed.

(** Only the timer that ends the pause of [fetchData] writes [allCompanies]. *)
Lemma step_allCompanies (e : Event) (s s' : State) :
  step toLowerCase e s = Some s' ->
  (forall i, e <> EFire i) ->
  allCompanies s' = allCompanies s.
Proof.
  intros St Hne. apply step_inv in St as [s1 [H ->]].
  rewrite settle_allCompanies.
  destruct e; unfold handle in H.
  - destruct (fetchStatus s); try discriminate. injection H as <-.
    apply mount_frame.
  - destruct (fetchStatus s); try discriminate. injection H as <-.
    apply fetchData_settle_frame.
  - now injection H as <-.
  - now elim (Hne i).
  - destruct (observing toLowerCase s); [|discriminate]. injection H as <-.
    unfold onIntersect. now destruct (hasMore s).
  - destruct (mounted s); [|discriminate]. now injection H as <-.
  - destruct (mounted s && _); [|discriminate]. now injection H as <-.
  - destruct (mounted s && _); [|discriminate]. now injection H as <-.
  - destruct (mounted s); [|discriminate]. now injection H as <-.
Qed.

(** Time does not run backwards. *)
Lemma step_now (e : Event) (s s' : State) :
  step toLowerCase e s = Some s' -> now s <= now s'.
Proof.
  intros St. apply step_inv in St as [s1 [H ->]]. rewrite settle_now.
  destruct e; try (unfold handle in H).
  - destruct (fetchStatus s); try discriminate. injection H as <-.
    now rewrite (proj1 (proj2 (mount_frame s))).
  - destruct (fetchStatus s); try discriminate. injection H as <-.
    now rewrite (proj1 (proj2 (fetchData_settle_frame res s))).
  - injection H as <-. cbn. lia.
  - fold (handle toLowerCase (EFire i) s) in H.
    apply handle_fire in H as [t [_ [_ [_ ->]]]].
    destruct (act t); reflexivity.
  - destruct (observing toLowerCase s); [|discriminate]. injection H as <-.
    unfold onIntersect. now destruct (hasMore s).
  - destruct (mounted s); [|discriminate]. now injection H as <-.
  - destruct (mounted s && _); [|discriminate]. now injection H as <-.
  - destruct (mounted s && _); [|discriminate]. now injection H as <-.
  - destruct (mounted s); [|discriminate]. now injection H as <-.
Qed.

(** Only the observer's callback moves the page counter. *)
Lemma step_page (e : Event) (s s' : State) :
  step toLowerCase e s = Some s' ->
  page s' = match e with
            | EIntersect => if hasMore s then page s + 1 else page s
            | _ => page s
            end.
Proof.
  intros St. apply step_inv in St as [s1 [H ->]]. rewrite settle_page.
  destruct e; try (unfold handle in H).
  - destruct (fetchStatus s); try discriminate. injection H as <-.
    apply mount_frame.
  - destruct (fetchStatus s); try discriminate. injection H as <-.
    apply fetchData_settle_frame.
  - now injection H as <-.
  - fold (handle toLowerCase (EFire i) s) in H.
    apply handle_fire in H as [t [_ [_ [_ ->]]]].
    destruct (act t); reflexivity.
  - destruct (observing toLowerCase s); [|discriminate]. injection H as <-.
    unfold onIntersect. now destruct (hasMore s).
  - destruct (mounted s); [|discriminate]. now injection H as <-.
  - destruct (mounted s && _); [|discriminate]. now injection H as <-.
  - destruct (mounted s && _); [|discriminate]. now injection H as <-.
  - destruct (mounted s); [|discriminate]. now injection H as <-.
Qed.

Lemma observing_true (s : State) :
  observing toLowerCase s = true ->
  mounted s = true /\ loading s = false /\ companies s <> [].
Proof.
  unfold observing. rewrite !andb_true_iff, !negb_true_iff.
  intros [[M L] E]. repeat split; auto.
  intros C. unfold filteredDataOf, filteredData in E. now rewrite C in E.
Qed.

Lemma step_intersect_observing (s s' : State) :
  step toLowerCase EIntersect s = Some s' -> observing toLowerCase s = true.
Proof.
  unfold step, handle. now destruct (observing toLowerCase s).
Qed.

End StepFrame.

(* ------------------------------------------------------------------ *)
(** ** Sessions *)

Section Sessions.

Variable toLowerCase : string -> string.

Lemma run_Phase (es : list Event) (s s' : State) :
  Phase s -> run toLowerCase es s = Some s' -> Phase s'.
Proof.
  revert s. induction es as [|e es IH]; simpl; intros s Hph.
  - now intros [= <-].
  - destruct (step toLowerCase e s) as [s1|] eqn:St; [|discriminate].
    apply IH. exact (proj1 (step_Phase toLowerCase s e s1 Hph St)).
Qed.

Lemma reachable_Phase (s : State) : reachable toLowerCase s -> Phase s.
Proof. intros [es R]. exact (run_Phase es initial s (PhInitial 0) R). Qed.

Lemma reachable_step (e : Event) (s s' : State) :
  reachable toLowerCase s -> step toLowerCase e s = Some s' ->
  reachable toLowerCase s'.
Proof.
  intros [es R] St. exists (es ++ [e]). revert R.
  generalize initial. induction es as [|e0 es IH]; simpl; intros s0.
  - intros [= ->]. now rewrite St.
  - destruct (step toLowerCase e0 s0); [apply IH | discriminate].
Qed.

Lemma Phase_companies (s : State) :
  Phase s -> companies s = shownAt (page s) (allCompanies s).
Proof. intros H. destruct H; reflexivity. Qed.

Lemma ltb_min (a n : nat) : (Nat.min a n <? n) = (a <? n).
Proof.
  destruct (a <? n) eqn:E.
  - apply Nat.ltb_lt in E. apply Nat.ltb_lt. lia.
  - apply Nat.ltb_ge in E. apply Nat.ltb_ge. lia.
Qed.

(** A state with a non-empty dataset has finished its fetch and shows
    the dataset up to the current page. *)
Lemma Phase_loaded (s : State) :
  Phase s -> allCompanies s <> [] ->
  fetchStatus s = Finished /\ error s = None /\ 1 <= page s
  /\ hasMore s = (page s * pageSize <? length (allCompanies s)).
Proof.
  intros H. destruct H; cbn [allCompanies]; try congruence; intros _;
    cbn [fetchStatus error page hasMore]; repeat split; auto;
    symmetry.
  - subst more. symmetry. apply ltb_min.
  - now apply Nat.ltb_lt.
  - now apply Nat.ltb_ge.
  - now apply Nat.ltb_ge.
Qed.

(** Before the dataset arrives, and when it is empty, nothing is shown
    and [hasMore] keeps its initial value. *)
Lemma Phase_unloaded (s : State) :
  Phase s -> allCompanies s = [] ->
  companies s = [] /\ hasMore s = true /\ page s = 1
  /\ showEndMessage s = false.
Proof.
  intros H. destruct H; cbn [allCompanies]; try congruence; intros _;
    repeat split.
Qed.

Lemma firstn_min_length {A : Type} (k : nat) (l : list A) :
  firstn (Nat.min k (length l)) l = firstn k l.
Proof.
  destruct (Nat.min_spec k (length l)) as [[_ ->]|[H ->]]; [reflexivity|].
  now rewrite firstn_all, firstn_all2.
Qed.

Lemma firstn_plus {A : Type} (a b : nat) (l : list A) :
  firstn (a + b) l = firstn a l ++ firstn b (skipn a l).
Proof.
  revert l. induction a as [|a IH]; intros l; [reflexivity|].
  destruct l as [|x l]; simpl; [now rewrite firstn_nil | now rewrite IH].
Qed.

Lemma shownAt_next (p : nat) (all : list Company) :
  shownAt (p + 1) all
  = shownAt p all ++ firstn pageSize (skipn (p * pageSize) all).
Proof.
  unfold shownAt. rewrite !firstn_min_length.
  replace ((p + 1) * pageSize) with (p * pageSize + pageSize) by lia.
  apply firstn_plus.
Qed.

Lemma shownAt_length (p : nat) (all : list Company) :
  length (shownAt p all) = Nat.min (p * pageSize) (length all).
Proof. unfold shownAt. rewrite length_firstn. lia. Qed.

Lemma shownAt_prefix (p : nat) (all : list Company) :
  Prefix (shownAt p all) all.
Proof.
  exists (skipn (Nat.min (p * pageSize) (length all)) all).
  unfold shownAt. now rewrite firstn_skipn.
Qed.

End Sessions.

(* ------------------------------------------------------------------ *)
(** ** Pagination *)

Section Pagination.

Variable toLowerCase : string -> string.

(** A scroll that increments the page happens with records still hidden. *)
Lemma intersect_more (s s' : State) :
  Phase s -> step toLowerCase EIntersect s = Some s' -> hasMore s = true ->
  allCompanies s <> [] /\ page s * pageSize < length (allCompanies s).
Proof.
  intros Hph St Hm.
  apply step_intersect_observing, observing_true in St as [_ [_ Hc]].
  assert (Hne : allCompanies s <> []).
  { intros E. now destruct (Phase_unloaded s Hph E) as [C _]. }
  split; [assumption|].
  destruct (Phase_loaded s Hph Hne) as [_ [_ [_ Hh]]].
  rewrite Hm in Hh. symmetry in Hh. now apply Nat.ltb_lt in Hh.
Qed.

(** C3. In every state of a session the displayed list is the first
    [min (10 * page) N] records of the dataset; a scroll that increments
    the page appends the next 10 records, or the fewer that remain, and at
    least one. *)
Theorem pagination_reveals_pages (s : State) :
  reachable toLowerCase s ->
  companies s
  = firstn (Nat.min (10 * page s) (length (allCompanies s))) (allCompanies s)
  /\ (forall s',
        step toLowerCase EIntersect s = Some s' -> hasMore s = true ->
        page s' = page s + 1
        /\ companies s'
           = companies s ++ firstn 10 (skipn (10 * page s) (allCompanies s))
        /\ length (companies s')
           = length (companies s)
             + Nat.min 10 (length (allCompanies s) - 10 * page s)
        /\ 0 < Nat.min 10 (length (allCompanies s) - 10 * page s))
  /\ (forall s',
        step toLowerCase EIntersect s = Some s' -> hasMore s = false ->
        page s' = page s /\ companies s' = companies s).
Proof.
  intros R. pose proof (reachable_Phase toLowerCase s R) as Hph.
  assert (Shown : forall t, Phase t ->
            companies t = firstn (Nat.min (10 * page t) (length (allCompanies t)))
                                 (allCompanies t)).
  { intros t Ht. rewrite (Phase_companies t Ht). unfold shownAt, pageSize.
    now rewrite (Nat.mul_comm (page t)). }
  split; [now apply Shown|]. split.
  - intros s' St Hm.
    destruct (intersect_more s s' Hph St Hm) as [Hne Hlt].
    pose proof (step_Phase toLowerCase s EIntersect s' Hph St) as [Hph' _].
    pose proof (step_page toLowerCase _ _ _ St) as Hp. cbn in Hp. rewrite Hm in Hp.
    assert (Ha : allCompanies s' = allCompanies s)
      by (apply (step_allCompanies toLowerCase _ _ _ St); intros i; discriminate).
    assert (C' : companies s'
                 = companies s ++ firstn 10 (skipn (10 * page s) (allCompanies s))).
    { rewrite (Phase_companies s' Hph'), (Phase_companies s Hph), Hp, Ha.
      rewrite shownAt_next. unfold pageSize. now rewrite (Nat.mul_comm (page s)). }
    repeat split; try assumption.
    + rewrite C', length_app, length_firstn, length_skipn. reflexivity.
    + unfold pageSize in Hlt. lia.
  - intros s' St Hm.
    pose proof (step_Phase toLowerCase s EIntersect s' Hph St) as [Hph' _].
    pose proof (step_page toLowerCase _ _ _ St) as Hp. cbn in Hp. rewrite Hm in Hp.
    assert (Ha : allCompanies s' = allCompanies s)
      by (apply (step_allCompanies toLowerCase _ _ _ St); intros i; discriminate).
    split; [assumption|].
    now rewrite (Phase_companies s' Hph'), (Phase_companies s Hph), Hp, Ha.
Qed.

End Pagination.

(* ------------------------------------------------------------------ *)
(** ** What [loadPage] maintains *)

Section LoadPage.

Variable toLowerCase : string -> string.

Lemma Prefix_refl {A : Type} (l : list A) : Prefix l l.
Proof. exists []. now rewrite app_nil_r. Qed.

Lemma Prefix_nil {A : Type} (l : list A) : Prefix [] l.
Proof. now exists l. Qed.

Lemma Prefix_length {A : Type} (l1 l2 : list A) :
  Prefix l1 l2 -> length l1 <= length l2.
Proof. intros [r ->]. rewrite length_app. lia. Qed.

Lemma shownAt_all (p : nat) (all : list Company) :
  length all <= p * pageSize -> shownAt p all = all.
Proof.
  intros H. unfold shownAt. rewrite Nat.min_r by assumption.
  apply firstn_all.
Qed.

Lemma Phase_Consistent (s : State) : Phase s -> Consistent s.
Proof.
  intros H. destruct H; unfold Consistent; cbn [companies allCompanies hasMore];
    (split; [first [apply Prefix_nil | apply shownAt_prefix] | ]);
    try discriminate; intros E; apply shownAt_all; try assumption.
  subst more. rewrite ltb_min in E. now apply Nat.ltb_ge in E.
Qed.

(** [loadPage], run for a render [r] on a state [s0] that agrees with [r]
    on the dataset. *)
Lemma loadPage_Consistent (r s0 : State) :
  allCompanies s0 = allCompanies r ->
  Consistent s0 -> Consistent (loadPage r s0).
Proof.
  intros A C. unfold loadPage.
  destruct ((length (allCompanies r) =? 0) || negb (hasMore r)); [assumption|].
  unfold Consistent. projs. rewrite A. split.
  - apply (shownAt_prefix (page r)).
  - intros E. apply Nat.ltb_ge in E. apply (shownAt_all (page r)). lia.
Qed.

Lemma commit_Consistent (prev cur : State) :
  Consistent cur -> Consistent (commit prev cur).
Proof.
  intros C. unfold commit.
  assert (K : forall s0, allCompanies s0 = allCompanies cur -> Consistent s0 ->
                         Consistent (pageEffect cur s0)).
  { intros s0 A C0. unfold pageEffect. destruct (negb _); [|assumption].
    now apply loadPage_Consistent. }
  assert (Cl : Consistent (endCleanup cur)
               /\ allCompanies (endCleanup cur) = allCompanies cur).
  { unfold endCleanup, clearTimeout. now destruct (endTimer cur). }
  assert (E : forall s0, Consistent s0 -> Consistent (endEffect cur s0)).
  { intros s0 C0. unfold endEffect. now destruct (negb (loading cur) && _). }
  destruct Cl as [Cl Al].
  destruct (negb (pageDeps_eqb prev cur)), (negb (endDeps_eqb prev cur)); auto.
Qed.

Lemma handle_Consistent (e : Event) (s s1 : State) :
  Phase s -> handle toLowerCase e s = Some s1 -> Consistent s1.
Proof.
  intros Hph. pose proof (Phase_Consistent s Hph) as C. revert s1.
  destruct e; intros s1; unfold handle.
  - destruct (fetchStatus s); try discriminate. intros [= <-].
    unfold mount.
    assert (E : forall s0, Consistent s0 -> Consistent (endEffect s s0)).
    { intros s0 C0. unfold endEffect. now destruct (negb (loading s) && _). }
    apply E. unfold pageEffect. destruct (negb _); [|exact C].
    now apply loadPage_Consistent.
  - destruct (fetchStatus s); try discriminate. intros [= <-].
    unfold fetchData_settle. now destruct (tryFetch res).
  - now intros [= <-].
  - intros H. fold (handle toLowerCase (EFire i) s) in H.
    apply handle_fire in H as [t [Hin [_ [_ ->]]]].
    destruct (act t) eqn:Ea; try exact C.
    destruct Hph; cbn [timers] in Hin; try contradiction;
      destruct Hin as [<-|[]]; try discriminate.
    split; [apply Prefix_nil | discriminate].
  - destruct (observing toLowerCase s); [|discriminate]. intros [= <-].
    unfold onIntersect. now destruct (hasMore s).
  - destruct (mounted s); [|discriminate]. now intros [= <-].
  - destruct (mounted s && _); [|discriminate]. now intros [= <-].
  - destruct (mounted s && _); [|discriminate]. now intros [= <-].
  - destruct (mounted s); [|discriminate]. now intros [= <-].
Qed.

Lemma renders_Consistent (e : Event) (s r : State) :
  Phase s -> In r (renders toLowerCase e s) -> Consistent r.
Proof.
  intros Hph. unfold renders.
  destruct (handle toLowerCase e s) as [s1|] eqn:H; [|contradiction].
  pose proof (handle_Consistent e s s1 Hph H) as C1.
  intros [<-|[<-|[<-|[]]]]; auto using commit_Consistent.
Qed.

Lemma Consistent_loadPage (r s0 : State) :
  Consistent r -> allCompanies r <> [] ->
  companies s0 = companies r -> allCompanies s0 = allCompanies r ->
  hasMore s0 = hasMore r ->
  PrefixShown (loadPage r s0).
Proof.
  intros [P F] Hne Ec Ea Eh. unfold loadPage.
  rewrite (length_eqb0 Hne). cbn [orb].
  destruct (hasMore r) eqn:Hm; cbn [negb].
  - unfold PrefixShown. projs. rewrite Ea. split.
    + apply (shownAt_prefix (page r)).
    + rewrite Nat.ltb_lt, length_firstn. lia.
  - unfold PrefixShown. rewrite Ec, Ea, Eh, (F eq_refl). split.
    + apply Prefix_refl.
    + split; [discriminate | lia].
Qed.

End LoadPage.

Section LoadPagePrefix.

Variable toLowerCase : string -> string.

Lemma Phase_PrefixShown (s : State) :
  Phase s -> allCompanies s <> [] -> PrefixShown s.
Proof.
  intros Hph Hne. destruct (Phase_loaded s Hph Hne) as [_ [_ [_ Hm]]].
  unfold PrefixShown. rewrite (Phase_companies s Hph), Hm. split.
  - apply shownAt_prefix.
  - rewrite Nat.ltb_lt, shownAt_length. lia.
Qed.

(** C8. Every execution of [loadPage] in a session leaves the displayed
    list an initial segment of the dataset, with [hasMore] true exactly
    when records are still hidden; so does every state of a session that
    has a dataset; once the whole dataset is displayed, raising the page
    changes nothing. *)
Theorem loadPage_keeps_prefix (s : State) :
  reachable toLowerCase s ->
  (forall e r s0,
      In r (renders toLowerCase e s) -> allCompanies r <> [] ->
      companies s0 = companies r -> allCompanies s0 = allCompanies r ->
      hasMore s0 = hasMore r ->
      PrefixShown (loadPage r s0))
  /\ (allCompanies s <> [] -> PrefixShown s)
  /\ (companies s = allCompanies s ->
      (forall k,
          let r := set_page (page s + k) s in
          companies (loadPage r r) = companies s)
      /\ (forall s', step toLowerCase EIntersect s = Some s' -> s' = s)).
Proof.
  intros R. pose proof (reachable_Phase toLowerCase s R) as Hph.
  split; [|split].
  - intros e r s0 Hin Hne Ec Ea Eh.
    apply Consistent_loadPage; auto.
    now apply (renders_Consistent toLowerCase e s r Hph).
  - now apply Phase_PrefixShown.
  - intros Eall.
    assert (Done : allCompanies s <> [] -> hasMore s = false).
    { intros Hne. destruct (Phase_PrefixShown s Hph Hne) as [_ Hm].
      destruct (hasMore s); [|reflexivity].
      rewrite Eall in Hm. pose proof (proj1 Hm eq_refl). lia. }
    split.
    + intros k r. unfold loadPage. subst r. projs.
      destruct (allCompanies s) as [|c l] eqn:Ea; [reflexivity|].
      rewrite Done by discriminate. cbn [length Nat.eqb negb orb].
      reflexivity.
    + intros s' St.
      pose proof (step_intersect_observing toLowerCase s s' St) as Ob.
      apply observing_true in Ob as [_ [_ Hc]].
      rewrite Eall in Hc. specialize (Done Hc).
      unfold step, handle in St.
      destruct (observing toLowerCase s); [|discriminate].
      unfold onIntersect in St. rewrite Done in St.
      rewrite settle_fixed in St. congruence.
Qed.

End LoadPagePrefix.

(* ------------------------------------------------------------------ *)
(** ** The fetch *)

Section Fetch.

Variable toLowerCase : string -> string.

Lemma FetchFails_cases (res : FetchResult) :
  FetchFails res <->
  NonSuccess res \/ NotJson res \/ NetworkError res \/ BodyRejected res.
Proof.
  unfold FetchFails, NonSuccess, NotJson, NetworkError, BodyRejected.
  destruct res as [m|r]; simpl.
  - split; [intros _; right; right; left; now exists m | intros _; now exists m].
  - destruct (ok r) eqn:O, (isJson (contentType r)) eqn:J; simpl.
    + split.
      * intros [m E]. right; right; right. now exists r, m.
      * intros [[r' [[= <-] H]]|[[r' [[= <-] H]]|[[m H]|[r' [m [[= <-] H]]]]]];
          try congruence. now exists m.
    + split; [intros _; right; left; now exists r | intros _; now eexists].
    + split; [intros _; left; now exists r | intros _; now eexists].
    + split; [intros _; left; now exists r | intros _; now eexists].
Qed.

Lemma tryFetch_data (res : FetchResult) (data : list Company) :
  tryFetch res = inr data ->
  exists r, res = Resolves r /\ ok r = true
            /\ isJson (contentType r) = true /\ json r = inr data.
Proof.
  destruct res as [m|r]; simpl; [discriminate|].
  destruct (ok r) eqn:O, (isJson (contentType r)) eqn:J; simpl;
    try discriminate.
  intros E. now exists r.
Qed.

(** The steps of a state whose fetch has finished. *)
Lemma step_finished (e : Event) (s s' : State) :
  Phase s -> fetchStatus s = Finished ->
  step toLowerCase e s = Some s' ->
  fetchStatus s' = Finished /\ allCompanies s' = allCompanies s
  /\ error s' = error s.
Proof.
  intros Hph F St. apply step_inv in St as [s1 [H ->]].
  rewrite settle_fetchStatus, settle_allCompanies, settle_error.
  destruct e; try (unfold handle in H).
  - rewrite F in H. discriminate.
  - rewrite F in H. discriminate.
  - now injection H as <-.
  - fold (handle toLowerCase (EFire i) s) in H.
    apply handle_fire in H as [t [Hin [_ [_ ->]]]].
    destruct Hph; try discriminate; cbn [timers] in Hin; try contradiction;
      destruct Hin as [<-|[]]; repeat split.
  - destruct (observing toLowerCase s); [|discriminate]. injection H as <-.
    unfold onIntersect. now destruct (hasMore s).
  - destruct (mounted s); [|discriminate]. now injection H as <-.
  - destruct (mounted s && _); [|discriminate]. now injection H as <-.
  - destruct (mounted s && _); [|discriminate]. now injection H as <-.
  - destruct (mounted s); [|discriminate]. now injection H as <-.
Qed.

Lemma run_finished (es : list Event) (s s' : State) :
  Phase s -> fetchStatus s = Finished ->
  run toLowerCase es s = Some s' ->
  fetchStatus s' = Finished /\ allCompanies s' = allCompanies s
  /\ error s' = error s.
Proof.
  revert s. induction es as [|e es IH]; simpl; intros s Hph F.
  - now intros [= <-].
  - destruct (step toLowerCase e s) as [s1|] eqn:St; [|discriminate].
    intros R.
    destruct (step_finished e s s1 Hph F St) as [F1 [A1 E1]].
    pose proof (proj1 (step_Phase toLowerCase s e s1 Hph St)) as Hph1.
    destruct (IH s1 Hph1 F1 R) as [F' [A' E']].
    repeat split; congruence.
Qed.

(** Once mounted, always mounted; and mounting happens at most once. *)
Lemma step_mounted (e : Event) (s s' : State) :
  step toLowerCase e s = Some s' -> mounted s = true -> mounted s' = true.
Proof.
  intros St M. apply step_inv in St as [s1 [H ->]].
  assert (K : mounted s1 = true).
  { destruct e; try (unfold handle in H).
    - unfold mounted in M. destruct (fetchStatus s); discriminate.
    - destruct (fetchStatus s); try discriminate. injection H as <-.
      unfold fetchData_settle. now destruct (tryFetch res).
    - now injection H as <-.
    - fold (handle toLowerCase (EFire i) s) in H.
      apply handle_fire in H as [t [_ [_ [_ ->]]]].
      destruct (act t); [reflexivity | exact M | exact M].
    - destruct (observing toLowerCase s); [|discriminate]. injection H as <-.
      unfold onIntersect. now destruct (hasMore s).
    - rewrite M in H. now injection H as <-.
    - destruct (_ && _); [|discriminate]. now injection H as <-.
    - destruct (_ && _); [|discriminate]. now injection H as <-.
    - rewrite M in H. now injection H as <-. }
  unfold mounted in *. now rewrite settle_fetchStatus.
Qed.

Lemma run_mounts_once (es : list Event) (s s' : State) :
  run toLowerCase es s = Some s' ->
  length (filter isMount es) <= (if mounted s then 0 else 1).
Proof.
  revert s. induction es as [|e es IH]; simpl; intros s.
  - intros _. destruct (mounted s); lia.
  - destruct (step toLowerCase e s) as [s1|] eqn:St; [|discriminate].
    intros R. specialize (IH s1 R).
    destruct (mounted s) eqn:M.
    + rewrite (step_mounted e s s1 St M) in IH.
      destruct e; simpl; try assumption.
      unfold step, handle in St. unfold mounted in M.
      destruct (fetchStatus s); discriminate.
    + destruct e; simpl; try (destruct (mounted s1); lia).
      assert (M1 : mounted s1 = true).
      { apply step_inv in St as [s2 [H ->]]. unfold mounted.
        rewrite settle_fetchStatus. unfold handle in H.
        destruct (fetchStatus s); try discriminate. injection H as <-.
        unfold mount, endEffect, pageEffect, loadPage, fetchData_start, setTimeout.
        cbn. repeat case_if; reflexivity. }
      rewrite M1 in IH. lia.
Qed.

End Fetch.

Section FetchOutcome.

Variable toLowerCase : string -> string.

Lemma Phase_awaiting (s : State) :
  Phase s -> fetchStatus s = AwaitingResponse ->
  exists gf lf cf srt nw,
    s = mkState [] [] 1 true true None gf lf cf false
                0 srt AwaitingResponse nw [] 0 None.
Proof. intros H. destruct H; try discriminate. intros _. now eexists _, _, _, _, _. Qed.

Lemma step_fetch_fails gf lf cf srt nw res message :
  tryFetch res = inl message ->
  step toLowerCase (EFetch res)
    (mkState [] [] 1 true true None gf lf cf false
             0 srt AwaitingResponse nw [] 0 None)
  = Some (mkState [] [] 1 false true
            (Some (Str.orElse message "Something went wrong"))
            gf lf cf false 0 srt Finished nw [] 0 None).
Proof.
  intros E. unfold step, handle. norm. unfold fetchData_settle. rewrite E.
  norm. unfold rounds. rewrite settle_S. eval_commit. quiet. reflexivity.
Qed.

Lemma step_fetch_succeeds gf lf cf srt nw res data :
  tryFetch res = inr data ->
  step toLowerCase (EFetch res)
    (mkState [] [] 1 true true None gf lf cf false
             0 srt AwaitingResponse nw [] 0 None)
  = Some (mkState [] [] 1 true true None gf lf cf false
            0 srt AwaitingDelay nw [mkTimer 0 (nw + 1000) (TStore data)] 1 None).
Proof.
  intros E. unfold step, handle. norm. unfold fetchData_settle. rewrite E.
  norm. quiet. reflexivity.
Qed.

Lemma run_store gf lf cf srt nw data d :
  1000 <= d ->
  exists s',
    run toLowerCase [ETick d; EFire 0]
      (mkState [] [] 1 true true None gf lf cf false
               0 srt AwaitingDelay nw [mkTimer 0 (nw + 1000) (TStore data)] 1 None)
    = Some s'
    /\ allCompanies s' = data.
Proof.
  intros D. cbn [run].
  assert (T : step toLowerCase (ETick d)
                (mkState [] [] 1 true true None gf lf cf false
                   0 srt AwaitingDelay nw [mkTimer 0 (nw + 1000) (TStore data)] 1 None)
              = Some (mkState [] [] 1 true true None gf lf cf false
                   0 srt AwaitingDelay (nw + d) [mkTimer 0 (nw + 1000) (TStore data)] 1 None)).
  { unfold step, handle. norm. quiet. reflexivity. }
  rewrite T. eexists. split.
  - unfold step, handle. norm. rewrite !Nat.eqb_refl. norm.
    replace (nw + 1000 <=? nw + d) with true by (symmetry; apply Nat.leb_le; lia).
    norm. reflexivity.
  - now rewrite settle_allCompanies.
Qed.

(** C4, as the code has it. A settled fetch takes the error path exactly
    when the status is not a success, the content type does not include
    [application/json], [fetch] rejects, or [res.json()] rejects. On the
    error path the message is stored in [error] and the dataset is never
    written; otherwise the parsed array is the dataset once the pause of
    1000 ms is over. *)
Theorem fetch_failure_cases (s : State) (res : FetchResult) :
  reachable toLowerCase s -> fetchStatus s = AwaitingResponse ->
  (FetchFails res <->
     NonSuccess res \/ NotJson res \/ NetworkError res \/ BodyRejected res)
  /\ exists s',
       step toLowerCase (EFetch res) s = Some s' /\
       match tryFetch res with
       | inl message =>
           error s' = Some (Str.orElse message "Something went wrong")
           /\ allCompanies s' = allCompanies s
           /\ timers s' = []
           /\ (forall es s'', run toLowerCase es s' = Some s'' ->
                 allCompanies s'' = allCompanies s)
       | inr data =>
           error s' = None
           /\ allCompanies s' = allCompanies s
           /\ (exists r, res = Resolves r /\ json r = inr data)
           /\ (exists i,
                 timers s' = [mkTimer i (now s' + 1000) (TStore data)]
                 /\ forall d, 1000 <= d ->
                      exists s'', run toLowerCase [ETick d; EFire i] s' = Some s''
                                  /\ allCompanies s'' = data)
       end.
Proof.
  intros R A. split; [apply FetchFails_cases|].
  pose proof (reachable_Phase toLowerCase s R) as Hph.
  destruct (Phase_awaiting s Hph A) as [gf [lf [cf [srt [nw ->]]]]].
  destruct (tryFetch res) as [message|data] eqn:E.
  - eexists. split; [exact (step_fetch_fails gf lf cf srt nw res message E)|].
    repeat split. intros es s'' Run.
    assert (T : Str.truthy (Str.orElse message "Something went wrong") = true)
      by (apply StrFacts.orElse_truthy; reflexivity).
    destruct (run_finished toLowerCase es _ s'' (PhFailed _ gf lf cf srt nw T)
                eq_refl Run) as [_ [Al _]].
    exact Al.
  - eexists. split; [exact (step_fetch_succeeds gf lf cf srt nw res data E)|].
    repeat split.
    + destruct (tryFetch_data res data E) as [r [-> [_ [_ J]]]]. now exists r.
    + exists 0. split; [reflexivity|]. intros d D. now apply run_store.
Qed.

(** C5. A failed fetch stores a non-empty message in [error], which the
    error box renders; the dataset stays empty and the message stays up
    for the rest of the session, during which no fetch is issued again:
    the fetch effect runs in the mount step only, and a session mounts
    once. *)
Theorem fetch_failure_is_shown (s : State) (res : FetchResult) (message : string) :
  reachable toLowerCase s -> fetchStatus s = AwaitingResponse ->
  tryFetch res = inl message ->
  exists s',
    step toLowerCase (EFetch res) s = Some s'
    /\ error s' = Some (Str.orElse message "Something went wrong")
    /\ errorBox s' = Some (Str.orElse message "Something went wrong")
    /\ allCompanies s = [] /\ allCompanies s' = []
    /\ (forall es s'', run toLowerCase es s' = Some s'' ->
          fetchStatus s'' = Finished /\ allCompanies s'' = []
          /\ errorBox s'' = errorBox s' /\ filter isMount es = [])
    /\ (forall es s0, run toLowerCase es initial = Some s0 ->
          length (filter isMount es) <= 1).
Proof.
  intros R A E.
  pose proof (reachable_Phase toLowerCase s R) as Hph.
  destruct (Phase_awaiting s Hph A) as [gf [lf [cf [srt [nw ->]]]]].
  assert (T : Str.truthy (Str.orElse message "Something went wrong") = true)
    by (apply StrFacts.orElse_truthy; reflexivity).
  eexists. split; [exact (step_fetch_fails gf lf cf srt nw res message E)|].
  split; [reflexivity|]. split.
  { unfold errorBox. cbn [error]. now rewrite T. }
  split; [reflexivity|]. split; [reflexivity|]. split.
  - intros es s'' Run.
    destruct (run_finished toLowerCase es _ s'' (PhFailed _ gf lf cf srt nw T)
                eq_refl Run) as [F [Al Er]].
    repeat split; try assumption.
    + unfold errorBox. now rewrite Er.
    + pose proof (run_mounts_once toLowerCase es _ s'' Run) as M.
      cbn in M. destruct (filter isMount es); [reflexivity | cbn in M; lia].
  - intros es s0 Run. exact (run_mounts_once toLowerCase es initial s0 Run).
Qed.

(** C7. No step but the one that ends the pause of [fetchData] writes
    [allCompanies]: paging, searching, filtering and sorting leave it as
    it is; once the fetch has finished the dataset stays the same for the
    rest of the session; and a session mounts, hence fetches, once. *)
Theorem dataset_is_read_once :
  (forall s e s',
      step toLowerCase e s = Some s' -> (forall i, e <> EFire i) ->
      allCompanies s' = allCompanies s)
  /\ (forall s es s',
        reachable toLowerCase s -> fetchStatus s = Finished ->
        run toLowerCase es s = Some s' ->
        allCompanies s' = allCompanies s /\ fetchStatus s' = Finished)
  /\ (forall es s, run toLowerCase es initial = Some s ->
        length (filter isMount es) <= 1).
Proof.
  split; [|split].
  - intros s e s'. apply step_allCompanies.
  - intros s es s' R F Run.
    pose proof (reachable_Phase toLowerCase s R) as Hph.
    destruct (run_finished toLowerCase es s s' Hph F Run) as [F' [A' _]].
    now split.
  - intros es s Run. exact (run_mounts_once toLowerCase es initial s Run).
Qed.

End FetchOutcome.

(* ------------------------------------------------------------------ *)
(** ** The end-of-list message *)

Section EndMessage.

Variable toLowerCase : string -> string.

Lemma ended_le_1 (s : State) : ended s <= 1.
Proof. unfold ended. destruct (negb (hasMore s) && negb (loading s)); lia. Qed.

Lemma ended_1 (s : State) :
  ended s = 1 <-> hasMore s = false /\ loading s = false.
Proof.
  unfold ended. destruct (hasMore s), (loading s); cbn; split;
    try intros [? ?]; try discriminate; auto.
Qed.

(** Along a run, the message appears as often as the end of the list is
    reached. *)
Lemma run_appearances (es : list Event) (s s' : State) :
  Phase s -> run toLowerCase es s = Some s' ->
  exists tr, states toLowerCase es s = Some tr
             /\ appearances (showEndMessage s) tr + ended s = ended s'.
Proof.
  revert s. induction es as [|e es IH]; simpl; intros s Hph.
  - intros [= <-]. now exists [].
  - destruct (step toLowerCase e s) as [s1|] eqn:St; [|discriminate].
    intros Run.
    destruct (step_Phase toLowerCase s e s1 Hph St) as [Hph1 [Cnt _]].
    destruct (IH s1 Hph1 Run) as [tr [-> Eq]].
    exists (s1 :: tr). split; [reflexivity|]. simpl. lia.
Qed.

Lemma states_run (es : list Event) (s : State) (tr : list State) :
  states toLowerCase es s = Some tr ->
  exists s', run toLowerCase es s = Some s'.
Proof.
  revert s tr. induction es as [|e es IH]; simpl; intros s tr.
  - intros _. now exists s.
  - destruct (step toLowerCase e s) as [s1|]; [|discriminate].
    destruct (states toLowerCase es s1) as [tr1|] eqn:E; [|discriminate].
    intros _. now apply (IH s1 tr1).
Qed.

Lemma run_now (es : list Event) (s s' : State) :
  run toLowerCase es s = Some s' -> now s <= now s'.
Proof.
  revert s. induction es as [|e es IH]; simpl; intros s.
  - intros [= <-]. lia.
  - destruct (step toLowerCase e s) as [s1|] eqn:St; [|discriminate].
    intros Run. pose proof (step_now toLowerCase e s s1 St).
    specialize (IH s1 Run). lia.
Qed.

(** The message is hidden only by its own timer, and not before it is due. *)
Lemma hidden_after_due (es : list Event) (s s' : State) (i d : nat) :
  Phase s -> showEndMessage s = true ->
  timers s = [mkTimer i d THideEnd] ->
  run toLowerCase es s = Some s' -> showEndMessage s' = false ->
  d <= now s'.
Proof.
  revert s. induction es as [|e es IH]; simpl; intros s Hph On Tm.
  - intros [= <-]. congruence.
  - destruct (step toLowerCase e s) as [s1|] eqn:St; [|discriminate].
    intros Run Off.
    destruct (step_Phase toLowerCase s e s1 Hph St)
      as [Hph1 [_ [_ [TurnOff Stay]]]].
    destruct (showEndMessage s1) eqn:On1.
    + apply (IH s1 Hph1 On1); try assumption.
      now rewrite (Stay On eq_refl).
    + destruct (TurnOff On eq_refl) as [i0 [d0 [Tm0 [_ Due]]]].
      rewrite Tm in Tm0. injection Tm0 as _ <-.
      pose proof (step_now toLowerCase e s s1 St).
      pose proof (run_now es s1 s' Run). lia.
Qed.

Lemma Phase_shown (s : State) :
  Phase s -> showEndMessage s = true ->
  loading s = false /\ hasMore s = false /\ error s = None
  /\ exists i d, timers s = [mkTimer i d THideEnd].
Proof.
  intros H. destruct H; cbn [showEndMessage]; try discriminate.
  intros _. repeat split. now exists i, d.
Qed.

Lemma step_hide (s : State) (i d : nat) :
  Phase s -> showEndMessage s = true ->
  timers s = [mkTimer i d THideEnd] -> d <= now s ->
  exists s', step toLowerCase (EFire i) s = Some s'
             /\ showEndMessage s' = false /\ timers s' = [].
Proof.
  intros H. destruct H; cbn [showEndMessage timers now]; try discriminate.
  intros _ [= -> ->] Due. eexists. split.
  - unfold step, handle. norm. rewrite !Nat.eqb_refl. norm.
    replace (d <=? nw) with true by (symmetry; now apply Nat.leb_le).
    norm. quiet. reflexivity.
  - split; reflexivity.
Qed.

(** C6. The effect shows the message and arms a timer of 3000 ms when it
    runs with [loading] and [hasMore] both false. In a session: the step
    in which both become false turns the message on, visibly, with that
    timer pending and due 3000 ms later; the message goes off only when
    that timer runs, not before it is due, and running it turns the
    message off; and the message appears at most once, exactly once in a
    session that has reached the end of the list and finished loading. *)
Theorem end_message_once (s : State) :
  reachable toLowerCase s ->
  (forall r s0, loading r = false -> hasMore r = false ->
      showEndMessage (endEffect r s0) = true
      /\ In (mkTimer (nextTid s0) (now s0 + 3000) THideEnd)
            (timers (endEffect r s0)))
  /\ (forall e s', step toLowerCase e s = Some s' ->
        hasMore s = true \/ loading s = true ->
        hasMore s' = false -> loading s' = false ->
        showEndMessage s = false /\ showEndMessage s' = true
        /\ endMessageVisible s' = true
        /\ exists i, timers s' = [mkTimer i (now s' + 3000) THideEnd])
  /\ (showEndMessage s = true ->
        loading s = false /\ hasMore s = false /\ endMessageVisible s = true
        /\ exists i d,
             timers s = [mkTimer i d THideEnd]
             /\ (forall es s', run toLowerCase es s = Some s' ->
                   showEndMessage s' = false -> d <= now s')
             /\ (d <= now s ->
                   exists s', step toLowerCase (EFire i) s = Some s'
                              /\ showEndMessage s' = false))
  /\ (forall es tr, states toLowerCase es initial = Some tr ->
        appearances false tr <= 1)
  /\ (forall es s', run toLowerCase es initial = Some s' ->
        hasMore s' = false -> loading s' = false ->
        exists tr, states toLowerCase es initial = Some tr
                   /\ appearances false tr = 1).
Proof.
  intros R. pose proof (reachable_Phase toLowerCase s R) as Hph.
  split; [|split; [|split; [|split]]].
  - intros r s0 L M. unfold endEffect. rewrite L, M. cbn [negb andb].
    unfold setTimeout. projs. split; [reflexivity|].
    apply in_or_app. right. now left.
  - intros e s' St Before M' L'.
    destruct (step_Phase toLowerCase s e s' Hph St) as [Hph' [Cnt [TurnOn _]]].
    assert (E0 : ended s = 0).
    { unfold ended. destruct Before as [-> | ->]; cbn;
        [reflexivity | now rewrite andb_false_r]. }
    assert (E1 : ended s' = 1) by now apply ended_1.
    rewrite E0, E1 in Cnt.
    destruct (showEndMessage s) eqn:Sh; [cbn in Cnt; lia|].
    destruct (showEndMessage s') eqn:Sh'; [|cbn in Cnt; lia].
    destruct (Phase_shown s' Hph' Sh') as [_ [_ [Er _]]].
    repeat split.
    + unfold endMessageVisible, errorTruthy. now rewrite L', Sh', Er.
    + now apply TurnOn.
  - intros Sh.
    destruct (Phase_shown s Hph Sh) as [L [M [Er [i [d Tm]]]]].
    repeat split; try assumption.
    + unfold endMessageVisible, errorTruthy. now rewrite L, Sh, Er.
    + exists i, d. split; [assumption|]. split.
      * intros es s' Run Off.
        exact (hidden_after_due es s s' i d Hph Sh Tm Run Off).
      * intros Due.
        destruct (step_hide s i d Hph Sh Tm Due) as [s' [St [Off _]]].
        now exists s'.
  - intros es tr St.
    destruct (states_run es initial tr St) as [s' Run].
    destruct (run_appearances es initial s' (PhInitial 0) Run) as [tr' [St' Eq]].
    rewrite St in St'. injection St' as <-.
    cbn [showEndMessage initial] in Eq. pose proof (ended_le_1 s'). lia.
  - intros es s' Run M L.
    destruct (run_appearances es initial s' (PhInitial 0) Run) as [tr [St Eq]].
    exists tr. split; [assumption|].
    cbn [showEndMessage initial] in Eq.
    assert (E1 : ended s' = 1) by now apply ended_1.
    assert (E0 : ended initial = 0) by reflexivity. lia.
Qed.

End EndMessage.

(* ------------------------------------------------------------------ *)
(** ** Rendering comes to rest *)

Lemma commit_hasMore (prev cur : State) :
  hasMore (commit prev cur)
  = if pageRuns prev cur
    then Nat.min (page cur * pageSize) (length (allCompanies cur))
         <? length (allCompanies cur)
    else hasMore cur.
Proof.
  unfold pageRuns, commit, pageEffect, loadPage, endEffect, endCleanup,
    clearTimeout.
  destruct (pageDeps_eqb prev cur), (endDeps_eqb prev cur),
    (length (allCompanies cur) =? 0), (hasMore cur) eqn:M, (loading cur),
    (endTimer cur); cbn; try reflexivity; try congruence.
Qed.

Lemma commit_loading (prev cur : State) :
  loading (commit prev cur) = if pageRuns prev cur then true else loading cur.
Proof.
  unfold pageRuns, commit, pageEffect, loadPage, endEffect, endCleanup,
    clearTimeout.
  destruct (pageDeps_eqb prev cur), (endDeps_eqb prev cur),
    (length (allCompanies cur) =? 0), (hasMore cur), (loading cur) eqn:L,
    (endTimer cur); cbn; try reflexivity; try congruence.
Qed.

(** After a commit, [loadPage] has nothing left to do in the next one. *)
Lemma pageRuns_once (prev cur : State) :
  pageRuns cur (commit prev cur) = false.
Proof.
  unfold pageRuns at 1, pageDeps_eqb.
  rewrite commit_page, commit_allCompaniesRef, !Nat.eqb_refl, commit_hasMore.
  cbn [andb]. unfold pageRuns.
  destruct (hasMore cur) eqn:M.
  - destruct (negb (pageDeps_eqb prev cur) && negb (length (allCompanies cur) =? 0));
      cbn [andb].
    + destruct (_ <? _); cbn; [reflexivity | apply andb_false_r].
    + reflexivity.
  - rewrite andb_false_r. reflexivity.
Qed.

(** Two commits bring the component to rest: further ones change nothing,
    so the [rounds] of [step] are enough. *)
Lemma settle_enough (n : nat) (prev cur : State) :
  settle (2 + n) prev cur = settle 2 prev cur.
Proof.
  cbn [Nat.add settle]. pose proof (pageRuns_once prev cur) as P.
  set (c1 := commit prev cur) in *. apply settle_quiet.
  - unfold pageDeps_eqb.
    rewrite (commit_page cur c1), (commit_allCompaniesRef cur c1),
      (commit_hasMore cur c1), P.
    now rewrite !Nat.eqb_refl, Bool.eqb_reflx.
  - unfold endDeps_eqb.
    rewrite (commit_loading cur c1), (commit_hasMore cur c1), P.
    now rewrite !Bool.eqb_reflx.
Qed.

(* ------------------------------------------------------------------ *)
(** ** The dropdowns *)

Section Dropdowns.

Variable toLowerCase : string -> string.

Lemma step_select_city (c : Choice) (s : State) :
  mounted s = true -> selectable c (locations (allCompanies s)) = true ->
  exists s', step toLowerCase (ESelectCity c) s = Some s'
             /\ locationFilter s' = choiceValue c.
Proof.
  intros M S. unfold step, handle. rewrite M, S. cbn [andb].
  eexists. split; [reflexivity|]. now rewrite settle_locationFilter.
Qed.

Lemma step_select_company (c : Choice) (s : State) :
  mounted s = true -> selectable c (companyNames (allCompanies s)) = true ->
  exists s', step toLowerCase (ESelectCompany c) s = Some s'
             /\ companyFilter s' = choiceValue c.
Proof.
  intros M S. unfold step, handle. rewrite M, S. cbn [andb].
  eexists. split; [reflexivity|]. now rewrite settle_companyFilter.
Qed.

(** C10. The options of the two dropdowns are the distinct cities and the
    distinct companies of the dataset, each at the place of its first
    occurrence; a non-empty option is the city (the company) of some
    record, which its filter then admits; every option can be selected,
    and selecting the placeholder sets the filter to the empty string. *)
Theorem dropdown_options (s : State) :
  mounted s = true ->
  locations (allCompanies s) = distinctInOrder (map city (allCompanies s))
  /\ companyNames (allCompanies s)
     = distinctInOrder (map company (allCompanies s))
  /\ NoDup (locations (allCompanies s))
  /\ NoDup (companyNames (allCompanies s))
  /\ (forall v, In v (locations (allCompanies s)) <->
                exists c, In c (allCompanies s) /\ city c = v)
  /\ (forall v, In v (companyNames (allCompanies s)) <->
                exists c, In c (allCompanies s) /\ company c = v)
  /\ (forall v, selectable (Item v) (locations (allCompanies s)) = true ->
        v <> "" ->
        (exists c, In c (allCompanies s) /\ matchesCity v c = true)
        /\ exists s', step toLowerCase (ESelectCity (Item v)) s = Some s'
                      /\ locationFilter s' = v)
  /\ (forall v, selectable (Item v) (companyNames (allCompanies s)) = true ->
        v <> "" ->
        (exists c, In c (allCompanies s) /\ matchesCompany v c = true)
        /\ exists s', step toLowerCase (ESelectCompany (Item v)) s = Some s'
                      /\ companyFilter s' = v)
  /\ (exists s', step toLowerCase (ESelectCity Placeholder) s = Some s'
                 /\ locationFilter s' = "")
  /\ (exists s', step toLowerCase (ESelectCompany Placeholder) s = Some s'
                 /\ companyFilter s' = "").
Proof.
  intros M.
  assert (InL : forall v, In v (locations (allCompanies s)) <->
                          exists c, In c (allCompanies s) /\ city c = v).
  { intros v. unfold locations. rewrite JsSetFacts.of_list_In, in_map_iff.
    split; intros [c [A B]]; exists c; tauto. }
  assert (InC : forall v, In v (companyNames (allCompanies s)) <->
                          exists c, In c (allCompanies s) /\ company c = v).
  { intros v. unfold companyNames. rewrite JsSetFacts.of_list_In, in_map_iff.
    split; intros [c [A B]]; exists c; tauto. }
  repeat split.
  - apply JsSetFacts.of_list_distinct.
  - apply JsSetFacts.of_list_distinct.
  - apply JsSetFacts.of_list_NoDup.
  - apply JsSetFacts.of_list_NoDup.
  - apply InL.
  - apply InL.
  - apply InC.
  - apply InC.
  - apply selectable_spec in H as [|[v' [[= <-] Hin]]]; [discriminate|].
    apply InL in Hin as [c [Hc E]]. exists c. split; [assumption|].
    apply matchesCity_spec; now right.
  - now apply (step_select_city (Item v)).
  - apply selectable_spec in H as [|[v' [[= <-] Hin]]]; [discriminate|].
    apply InC in Hin as [c [Hc E]]. exists c. split; [assumption|].
    apply matchesCompany_spec; now right.
  - now apply (step_select_company (Item v)).
  - now apply (step_select_city Placeholder).
  - now apply (step_select_company Placeholder).
Qed.

End Dropdowns.

(* ================================================================== *)
(** * The session of [Session], step by step *)

Module SessionFacts.
Import Session.

Example first_page_shows_ten :
  length (companies sFirstPage) = 10 /\ page sFirstPage = 1
  /\ hasMore sFirstPage = true /\ loading sFirstPage = false.
Proof. vm_compute. repeat split. Qed.

Example last_page_shows_all :
  companies sEndShown = dataset /\ page sEndShown = 3
  /\ hasMore sEndShown = false /\ showEndMessage sEndShown = true
  /\ timers sEndShown = [mkTimer 4 (4000 + 3000) THideEnd]
  /\ now sEndShown = 4000.
Proof. vm_compute. repeat split. Qed.

Example end_message_hidden_when_due :
  showEndMessage sEndHidden = false /\ timers sEndHidden = []
  /\ run Str.lower (lastPage ++ [ETick 2999; EFire 4]) initial = None.
Proof. vm_compute. repeat split. Qed.

Example failed_fetch_state :
  error sFailed = Some "Failed to fetch company data"
  /\ allCompanies sFailed = [] /\ loading sFailed = false.
Proof. vm_compute. repeat split. Qed.

Example city_options : locations dataset = ["Paris"; "Berlin"; "paris"].
Proof. reflexivity. Qed.

Example company_options :
  companyNames dataset = ["Acme"; "Globex"; "Initech"; "Umbrella"].
Proof. reflexivity. Qed.

(** The search is case-insensitive, on owner and company only. *)
Example search_ignores_case :
  map owner (filteredData Str.lower dataset "ALICE" "" "") = ["Alice"]
  /\ length (filteredData Str.lower dataset "gLoBeX" "" "") = 6
  /\ filteredData Str.lower dataset "berlin" "" "" = []
  /\ filteredData Str.lower dataset "example.com" "" "" = [].
Proof. vm_compute. repeat split. Qed.

(** The dropdown filters compare exactly. *)
Example city_filter_is_case_sensitive :
  length (filteredData Str.lower dataset "" "Paris" "") = 9
  /\ length (filteredData Str.lower dataset "" "paris" "") = 8
  /\ filteredData Str.lower dataset "" "PARIS" "" = []
  /\ length (filteredData Str.lower dataset "" "Paris" "Acme") = 3.
Proof. vm_compute. repeat split. Qed.

Lemma after_reachable (es : list Event) :
  run Str.lower es initial <> None -> reachable Str.lower (after es).
Proof.
  intros H. exists es. unfold after.
  destruct (run Str.lower es initial); [reflexivity | contradiction].
Defined.

End SessionFacts.

(* ================================================================== *)
(** * The properties at the states of that session *)

Import Session.

Lemma text_filter_is_substring_match_witness :
  In (record 0) (filteredData Str.lower dataset "ALICE" "" "").
Proof.
  apply (proj1 (proj2 (text_filter_is_substring_match
                         Str.lower dataset "ALICE" (record 0)))).
  split; [now left|]. left. now exists "", "".
Defined.

Lemma dropdown_filters_are_exact_match_witness :
  "Paris" <> "" /\
  (matchesCity "Paris" (record 0) = true <-> city (record 0) = "Paris").
Proof.
  assert (N : "Paris" <> "") by discriminate.
  split; [exact N|].
  exact (proj1 (proj2 (proj2 (proj2 (dropdown_filters_are_exact_match
           Str.lower dataset "" "Paris" "" (record 0))))) N).
Defined.

Lemma pagination_reveals_pages_witness :
  reachable Str.lower sFirstPage /\
  companies sFirstPage
  = firstn (Nat.min (10 * page sFirstPage) (length (allCompanies sFirstPage)))
           (allCompanies sFirstPage).
Proof.
  assert (R : reachable Str.lower sFirstPage)
    by (apply SessionFacts.after_reachable; vm_compute; discriminate).
  split; [exact R|].
  exact (proj1 (pagination_reveals_pages Str.lower sFirstPage R)).
Defined.

(** C4, as stated, fails: a response with a success status and a JSON
    content type whose body does not parse takes the error path. *)
Lemma broken_body_takes_error_path :
  ~ (forall res,
       FetchFails res <-> NonSuccess res \/ NotJson res \/ NetworkError res)
  /\ FetchFails brokenBody
  /\ ~ (NonSuccess brokenBody \/ NotJson brokenBody \/ NetworkError brokenBody)
  /\ error (after [EMount; EFetch brokenBody])
     = Some "Unexpected end of JSON input"
  /\ allCompanies (after [EMount; EFetch brokenBody]) = []
  /\ timers (after [EMount; EFetch brokenBody]) = [].
Proof.
  assert (F : FetchFails brokenBody) by (now eexists).
  assert (N : ~ (NonSuccess brokenBody \/ NotJson brokenBody
                 \/ NetworkError brokenBody)).
  { intros [[r [[= <-] H]]|[[r [[= <-] H]]|[m H]]]; discriminate. }
  split; [|split; [exact F|split; [exact N|]]].
  - intros C. apply N. now apply C.
  - vm_compute. repeat split.
Qed.

Lemma fetch_failure_cases_witness :
  reachable Str.lower sMounted /\ fetchStatus sMounted = AwaitingResponse /\
  (FetchFails brokenBody <->
     NonSuccess brokenBody \/ NotJson brokenBody \/ NetworkError brokenBody
     \/ BodyRejected brokenBody).
Proof.
  assert (R : reachable Str.lower sMounted)
    by (apply SessionFacts.after_reachable; vm_compute; discriminate).
  assert (A : fetchStatus sMounted = AwaitingResponse) by reflexivity.
  split; [exact R|]. split; [exact A|].
  exact (proj1 (fetch_failure_cases Str.lower sMounted brokenBody R A)).
Defined.

Lemma fetch_failure_is_shown_witness :
  reachable Str.lower sMounted /\ fetchStatus sMounted = AwaitingResponse /\
  tryFetch notFound = inl "Failed to fetch company data" /\
  exists s',
    step Str.lower (EFetch notFound) sMounted = Some s'
    /\ errorBox s' = Some "Failed to fetch company data".
Proof.
  assert (R : reachable Str.lower sMounted)
    by (apply SessionFacts.after_reachable; vm_compute; discriminate).
  assert (A : fetchStatus sMounted = AwaitingResponse) by reflexivity.
  assert (E : tryFetch notFound = inl "Failed to fetch company data")
    by reflexivity.
  split; [exact R|]. split; [exact A|]. split; [exact E|].
  destruct (fetch_failure_is_shown Str.lower sMounted notFound
              "Failed to fetch company data" R A E)
    as [s' [St [_ [Box _]]]].
  exists s'. split; [exact St | exact Box].
Defined.

Lemma end_message_once_witness :
  reachable Str.lower sEndShown /\ showEndMessage sEndShown = true /\
  endMessageVisible sEndShown = true.
Proof.
  assert (R : reachable Str.lower sEndShown)
    by (apply SessionFacts.after_reachable; vm_compute; discriminate).
  assert (S : showEndMessage sEndShown = true) by (vm_compute; reflexivity).
  split; [exact R|]. split; [exact S|].
  exact (proj1 (proj2 (proj2 (proj1 (proj2 (proj2
           (end_message_once Str.lower sEndShown R))) S)))).
Defined.

Lemma dataset_is_read_once_witness :
  step Str.lower (ESearch "acme") sFirstPage
  = Some (after (firstPage ++ [ESearch "acme"])) /\
  allCompanies (after (firstPage ++ [ESearch "acme"]))
  = allCompanies sFirstPage.
Proof.
  assert (St : step Str.lower (ESearch "acme") sFirstPage
               = Some (after (firstPage ++ [ESearch "acme"])))
    by (vm_compute; reflexivity).
  split; [exact St|].
  apply (proj1 (dataset_is_read_once Str.lower) sFirstPage (ESearch "acme") _ St).
  intros i. discriminate.
Defined.

Lemma loadPage_keeps_prefix_witness :
  reachable Str.lower sFirstPage /\ allCompanies sFirstPage <> [] /\
  PrefixShown sFirstPage.
Proof.
  assert (R : reachable Str.lower sFirstPage)
    by (apply SessionFacts.after_reachable; vm_compute; discriminate).
  assert (N : allCompanies sFirstPage <> []) by (vm_compute; discriminate).
  split; [exact R|]. split; [exact N|].
  exact (proj1 (proj2 (loadPage_keeps_prefix Str.lower sFirstPage R)) N).
Defined.

Lemma no_filter_is_identity_witness :
  Str.lower "" = "" /\ globalFilter sFirstPage = ""
  /\ locationFilter sFirstPage = "" /\ companyFilter sFirstPage = ""
  /\ filteredDataOf Str.lower sFirstPage = companies sFirstPage.
Proof.
  assert (L : Str.lower "" = "") by reflexivity.
  assert (G : globalFilter sFirstPage = "") by (vm_compute; reflexivity).
  assert (C : locationFilter sFirstPage = "") by (vm_compute; reflexivity).
  assert (K : companyFilter sFirstPage = "") by (vm_compute; reflexivity).
  split; [exact L|]. split; [exact G|]. split; [exact C|]. split; [exact K|].
  exact (no_filter_is_identity Str.lower sFirstPage L G C K).
Defined.

Lemma dropdown_options_witness :
  mounted sFirstPage = true /\
  locations (allCompanies sFirstPage)
  = distinctInOrder (map city (allCompanies sFirstPage)).
Proof.
  assert (M : mounted sFirstPage = true) by (vm_compute; reflexivity).
  split; [exact M|].
  exact (proj1 (dropdown_options Str.lower sFirstPage M)).
Defined.

(* ================================================================== *)
(** * Further properties of the component *)

Section Loading.

Variable toLowerCase : string -> string.

Ltac facts :=
  unfold LoadOk; norm;
  repeat apply conj;
  try (left; reflexivity); try discriminate;
  try (intros _ _ _; reflexivity).

Ltac finishOk := intros [= <-]; norm; facts.

Lemma step_loading (s : State) (e : Event) (s' : State) :
  Phase s -> step toLowerCase e s = Some s' -> LoadOk s e s'.
Proof.
  intros Hph. destruct Hph;
  try match goal with H : (_ <? _) = ?hm |- _ => is_var hm; destruct hm end;
  destruct e; unfold step, handle; norm;
  rewrite ?observing_nil;
  try discriminate.
  all: try (quiet; finishOk).
  all: try match goal with
           | |- context [selectable ?c ?l] =>
               destruct (selectable c l); [|discriminate]
           end.
  all: try match goal with
           | |- context [observing ?c ?l] =>
               destruct (observing c l) eqn:Hobs; [|discriminate]
           end.
  all: try (quiet; finishOk).
  - (* mount *)
    norm. eval_page. norm. unfold rounds. rewrite settle_S. eval_commit.
    quiet. finishOk.
  - (* the fetch settles *)
    unfold fetchData_settle. destruct (tryFetch res) as [m|data] eqn:Et.
    + norm. unfold rounds. rewrite settle_S. eval_commit. quiet. finishOk.
    + norm. quiet. finishOk.
  - (* the pause of fetchData ends *)
    fire. unfold rounds. rewrite settle_S.
    destruct data as [|c0 data].
    + eval_commit. quiet. finishOk.
    + eval_commit.
      match goal with
      | |- context [Nat.min ?a ?b <? ?c] => destruct (Nat.min a b <? c) eqn:Hm
      end; rewrite settle_S; eval_commit; quiet;
      intros [= <-]; facts; (right; split; [reflexivity | now eexists]).
  - (* a page has been loading for a second, more records remain *)
    fire; unfold rounds; rewrite settle_S; eval_commit; quiet;
    intros [= <-]; facts.
    intros _ _ _. eexists _, _. repeat split. arith.
  - (* a page has been loading for a second, it was the last one *)
    fire; unfold rounds; rewrite settle_S; eval_commit; quiet;
    intros [= <-]; facts.
    intros _ _ _. eexists _, _. repeat split. arith.
  - (* the last row scrolls into view *)
    norm. unfold rounds. rewrite settle_S. eval_commit.
    match goal with
    | |- context [Nat.min ?a ?b <? ?c] => destruct (Nat.min a b <? c) eqn:Hm
    end; rewrite settle_S; eval_commit; quiet;
    intros [= <-]; facts;
    try (right; split; [reflexivity | now eexists]);
    intros _ _ _; split; reflexivity.
  - (* the end message has been up for three seconds *)
    fire. quiet. finishOk.
Qed.

End Loading.

(* ------------------------------------------------------------------ *)
(** ** The displayed list along a session *)

Lemma Prefix_trans {A : Type} (l1 l2 l3 : list A) :
  Prefix l1 l2 -> Prefix l2 l3 -> Prefix l1 l3.
Proof. intros [r ->] [r' ->]. exists (r ++ r'). now rewrite app_assoc. Qed.

Lemma firstn_Prefix {A : Type} (a b : nat) (l : list A) :
  a <= b -> Prefix (firstn a l) (firstn b l).
Proof.
  intros H. replace b with (a + (b - a)) by lia. rewrite firstn_plus.
  now exists (firstn (b - a) (skipn a l)).
Qed.

Lemma shownAt_mono (p q : nat) (all : list Company) :
  p <= q -> Prefix (shownAt p all) (shownAt q all).
Proof.
  intros H. unfold shownAt. rewrite !firstn_min_length.
  apply firstn_Prefix. unfold pageSize. lia.
Qed.

Lemma filter_Prefix {A : Type} (f : A -> bool) (l1 l2 : list A) :
  Prefix l1 l2 -> Prefix (filter f l1) (filter f l2).
Proof. intros [r ->]. rewrite filter_app. now exists (filter f r). Qed.

Section Growth.

Variable toLowerCase : string -> string.

Lemma step_page_le (e : Event) (s s' : State) :
  step toLowerCase e s = Some s' -> page s <= page s'.
Proof.
  intros St. rewrite (step_page toLowerCase e s s' St).
  destruct e; try lia. destruct (hasMore s); lia.
Qed.

Lemma step_grows (e : Event) (s s' : State) :
  Phase s -> step toLowerCase e s = Some s' ->
  Prefix (companies s) (companies s').
Proof.
  intros Hph St.
  pose proof (proj1 (step_Phase toLowerCase s e s' Hph St)) as Hph'.
  destruct (allCompanies s) as [|c l] eqn:Ea.
  - destruct (Phase_unloaded s Hph Ea) as [-> _]. now exists (companies s').
  - assert (Hne : allCompanies s <> []) by (rewrite Ea; discriminate).
    destruct (Phase_loaded s Hph Hne) as [F _].
    destruct (step_finished toLowerCase e s s' Hph F St) as [_ [A _]].
    rewrite (Phase_companies s Hph), (Phase_companies s' Hph'), A.
    apply shownAt_mono. exact (step_page_le e s s' St).
Qed.

Lemma run_grows (es : list Event) (s s' : State) :
  Phase s -> run toLowerCase es s = Some s' ->
  Prefix (companies s) (companies s') /\ page s <= page s'.
Proof.
  revert s. induction es as [|e es IH]; simpl; intros s Hph.
  - intros [= <-]. split; [exists []; now rewrite app_nil_r | lia].
  - destruct (step toLowerCase e s) as [s1|] eqn:St; [|discriminate].
    intros Run.
    pose proof (proj1 (step_Phase toLowerCase s e s1 Hph St)) as Hph1.
    destruct (IH s1 Hph1 Run) as [P L].
    split.
    + exact (Prefix_trans _ _ _ (step_grows e s s1 Hph St) P).
    + pose proof (step_page_le e s s1 St). lia.
Qed.

(** X1. Records never leave the displayed list: along every
    continuation of a session the displayed list of the earlier state is
    an initial segment of the later one, the page counter does not
    decrease, and the later list is still an initial segment of the
    dataset. *)
Theorem displayed_list_only_grows (s : State) (es : list Event) (s' : State) :
  reachable toLowerCase s -> run toLowerCase es s = Some s' ->
  Prefix (companies s) (companies s')
  /\ page s <= page s'
  /\ Prefix (companies s') (allCompanies s').
Proof.
  intros R Run. pose proof (reachable_Phase toLowerCase s R) as Hph.
  destruct (run_grows es s s' Hph Run) as [P L].
  repeat split; try assumption.
  rewrite (Phase_companies s' (run_Phase toLowerCase es s s' Hph Run)).
  apply shownAt_prefix.
Qed.

(** X2. Filtering and paging compose: while the three filters keep
    their values, the rows of the table only grow at the end, so a row
    that is on display keeps its position when further pages load. *)
Theorem filtered_rows_only_grow (s : State) (es : list Event) (s' : State) :
  reachable toLowerCase s -> run toLowerCase es s = Some s' ->
  globalFilter s' = globalFilter s ->
  locationFilter s' = locationFilter s ->
  companyFilter s' = companyFilter s ->
  Prefix (filteredDataOf toLowerCase s) (filteredDataOf toLowerCase s')
  /\ (forall c, In c (filteredDataOf toLowerCase s') -> In c (allCompanies s')).
Proof.
  intros R Run G L C. pose proof (reachable_Phase toLowerCase s R) as Hph.
  split.
  - unfold filteredDataOf, filteredData. rewrite G, L, C.
    apply filter_Prefix. exact (proj1 (run_grows es s s' Hph Run)).
  - intros c Hin. unfold filteredDataOf in Hin.
    apply filteredData_In in Hin as [Hin _].
    rewrite (Phase_companies s' (run_Phase toLowerCase es s s' Hph Run)) in Hin.
    destruct (shownAt_prefix (page s') (allCompanies s')) as [r E].
    rewrite E. apply in_or_app. now left.
Qed.

Lemma step_ended (e : Event) (s s' : State) :
  Phase s -> step toLowerCase e s = Some s' -> ended s = 1 -> ended s' = 1.
Proof.
  intros Hph St E.
  destruct (step_Phase toLowerCase s e s' Hph St) as [_ [Cnt _]].
  pose proof (ended_le_1 s'). lia.
Qed.

Lemma step_at_end (e : Event) (s s' : State) :
  Phase s -> step toLowerCase e s = Some s' -> hasMore s = false ->
  hasMore s' = false /\ page s' = page s
  /\ allCompanies s' = allCompanies s /\ companies s' = companies s.
Proof.
  intros Hph St M.
  pose proof (proj1 (step_Phase toLowerCase s e s' Hph St)) as Hph'.
  assert (Hne : allCompanies s <> []).
  { intros E. destruct (Phase_unloaded s Hph E) as [_ [T _]]. congruence. }
  destruct (Phase_loaded s Hph Hne) as [F [_ [_ Hm]]].
  destruct (step_finished toLowerCase e s s' Hph F St) as [_ [A _]].
  assert (P : page s' = page s).
  { rewrite (step_page toLowerCase e s s' St). destruct e; try reflexivity.
    now rewrite M. }
  assert (Hne' : allCompanies s' <> []) by now rewrite A.
  destruct (Phase_loaded s' Hph' Hne') as [_ [_ [_ Hm']]].
  repeat split; try assumption.
  - rewrite Hm', P, A, <- Hm. exact M.
  - now rewrite (Phase_companies s Hph), (Phase_companies s' Hph'), P, A.
Qed.

(** X3. The end of the list is final: once [hasMore] is false, no
    continuation of the session changes the displayed list, which is the
    whole dataset, the page counter or [hasMore]; and once loading is
    over it never starts again. *)
Theorem end_of_list_is_final (s : State) (es : list Event) (s' : State) :
  reachable toLowerCase s -> hasMore s = false ->
  run toLowerCase es s = Some s' ->
  hasMore s' = false /\ page s' = page s
  /\ companies s' = companies s /\ companies s' = allCompanies s'
  /\ (loading s = false -> loading s' = false).
Proof.
  intros R M Run. pose proof (reachable_Phase toLowerCase s R) as Hph.
  assert (K : hasMore s' = false /\ page s' = page s
              /\ allCompanies s' = allCompanies s /\ companies s' = companies s
              /\ (ended s = 1 -> ended s' = 1)).
  { clear R. revert s Hph M Run.
    induction es as [|e es IH]; simpl; intros s Hph M.
    - intros [= <-]. repeat split; auto.
    - destruct (step toLowerCase e s) as [s1|] eqn:St; [|discriminate].
      intros Run.
      destruct (step_at_end e s s1 Hph St M) as [M1 [P1 [A1 C1]]].
      pose proof (proj1 (step_Phase toLowerCase s e s1 Hph St)) as Hph1.
      destruct (IH s1 Hph1 M1 Run) as [M' [P' [A' [C' E']]]].
      repeat split; try congruence.
      intros E. apply E'. exact (step_ended e s s1 Hph St E). }
  destruct K as [M' [P' [A' [C' E']]]].
  repeat split; try assumption.
  - assert (Hne : allCompanies s <> []).
    { intros E. destruct (Phase_unloaded s Hph E) as [_ [T _]]. congruence. }
    destruct (Phase_Consistent s Hph) as [_ F].
    rewrite C', A'. now apply F.
  - intros L. assert (E1 : ended s = 1) by now apply ended_1.
    now apply ended_1 in E'.
Qed.

End Growth.

(* ------------------------------------------------------------------ *)
(** ** The search box and the dropdowns in [App] *)

Section Inputs.

Variable toLowerCase : string -> string.

Ltac same_deps :=
  apply settle_quiet; unfold pageDeps_eqb, endDeps_eqb; projs;
  now rewrite ?Nat.eqb_refl, ?Bool.eqb_reflx.

Lemma step_search (v : string) (s : State) :
  mounted s = true ->
  step toLowerCase (ESearch v) s = Some (set_globalFilter v s).
Proof. intros M. unfold step, handle. rewrite M. f_equal. same_deps. Qed.

Lemma step_sort (st : SortingState) (s : State) :
  mounted s = true ->
  step toLowerCase (ESort st) s = Some (set_sorting st s).
Proof. intros M. unfold step, handle. rewrite M. f_equal. same_deps. Qed.

Lemma step_city (c : Choice) (s : State) :
  mounted s = true -> selectable c (locations (allCompanies s)) = true ->
  step toLowerCase (ESelectCity c) s
  = Some (set_locationFilter (choiceValue c) s).
Proof.
  intros M S. unfold step, handle. rewrite M, S. cbn [andb]. f_equal. same_deps.
Qed.

Lemma step_company (c : Choice) (s : State) :
  mounted s = true -> selectable c (companyNames (allCompanies s)) = true ->
  step toLowerCase (ESelectCompany c) s
  = Some (set_companyFilter (choiceValue c) s).
Proof.
  intros M S. unfold step, handle. rewrite M, S. cbn [andb]. f_equal. same_deps.
Qed.

(** X4. Typing in the search box, choosing in a dropdown and sorting
    write their own state variable and nothing else: no effect re-runs, so
    the displayed list, the page, the flags and the timers stay as they
    are. *)
Theorem input_changes_one_variable (s : State) :
  mounted s = true ->
  (forall v, step toLowerCase (ESearch v) s = Some (set_globalFilter v s))
  /\ (forall st, step toLowerCase (ESort st) s = Some (set_sorting st s))
  /\ (forall c, selectable c (locations (allCompanies s)) = true ->
        step toLowerCase (ESelectCity c) s
        = Some (set_locationFilter (choiceValue c) s))
  /\ (forall c, selectable c (companyNames (allCompanies s)) = true ->
        step toLowerCase (ESelectCompany c) s
        = Some (set_companyFilter (choiceValue c) s)).
Proof.
  intros M. repeat split; intros.
  - now apply step_search.
  - now apply step_sort.
  - now apply step_city.
  - now apply step_company.
Qed.

Lemma selectable_placeholder (locs : list string) :
  selectable Placeholder locs = true.
Proof. reflexivity. Qed.

(** X5. Clearing undoes filtering: from a state whose search string is
    empty, typing a non-empty string renders the clear button and clicking
    it leads back to that very state, where the button is not rendered;
    likewise choosing an option of a dropdown, which the button of the
    dropdown then shows, and choosing its placeholder afterwards. *)
Theorem filter_then_clear_round_trip (s : State) :
  mounted s = true ->
  (globalFilter s = "" ->
     SearchInput.clearButton (globalFilter s) = None
     /\ forall v, v <> "" ->
          exists s1, step toLowerCase (ESearch v) s = Some s1
                     /\ SearchInput.clearButton (globalFilter s1) = Some ""
                     /\ step toLowerCase (ESearch "") s1 = Some s)
  /\ (locationFilter s = "" ->
      cityLabel s = "All Location"
      /\ forall v, In v (locations (allCompanies s)) -> v <> "" ->
           exists s1, step toLowerCase (ESelectCity (Item v)) s = Some s1
                      /\ cityLabel s1 = v
                      /\ step toLowerCase (ESelectCity Placeholder) s1 = Some s)
  /\ (companyFilter s = "" ->
      companyLabel s = "All Companies"
      /\ forall v, In v (companyNames (allCompanies s)) -> v <> "" ->
           exists s1, step toLowerCase (ESelectCompany (Item v)) s = Some s1
                      /\ companyLabel s1 = v
                      /\ step toLowerCase (ESelectCompany Placeholder) s1
                         = Some s).
Proof.
  intros M. split; [|split].
  - intros G. split; [now rewrite G|]. intros v Hv.
    exists (set_globalFilter v s). split; [now apply step_search|]. split.
    + unfold SearchInput.clearButton. projs.
      apply StrFacts.truthy_true in Hv. now rewrite Hv.
    + rewrite step_search by exact M. f_equal.
      destruct s; cbn in *. now subst.
  - intros L. split; [unfold cityLabel; now rewrite L|]. intros v Hv Ne.
    assert (S : selectable (Item v) (locations (allCompanies s)) = true).
    { apply selectable_spec. right. now exists v. }
    exists (set_locationFilter v s). split; [exact (step_city (Item v) s M S)|].
    split.
    + unfold cityLabel, Dropdown.label, Str.orElse. projs.
      apply StrFacts.truthy_true in Ne. now rewrite Ne.
    + rewrite step_city; [| exact M | reflexivity].
      f_equal. destruct s; cbn in *. now subst.
  - intros C. split; [unfold companyLabel; now rewrite C|]. intros v Hv Ne.
    assert (S : selectable (Item v) (companyNames (allCompanies s)) = true).
    { apply selectable_spec. right. now exists v. }
    exists (set_companyFilter v s).
    split; [exact (step_company (Item v) s M S)|]. split.
    + unfold companyLabel, Dropdown.label, Str.orElse. projs.
      apply StrFacts.truthy_true in Ne. now rewrite Ne.
    + rewrite step_company; [| exact M | reflexivity].
      f_equal. destruct s; cbn in *. now subst.
Qed.

(** The filters are written by their own events only. *)
Lemma step_keeps_filters (e : Event) (s s' : State) :
  step toLowerCase e s = Some s' -> changesFilter e = false ->
  globalFilter s' = globalFilter s
  /\ locationFilter s' = locationFilter s
  /\ companyFilter s' = companyFilter s.
Proof.
  intros St N. apply step_inv in St as [s1 [H ->]].
  rewrite settle_globalFilter, settle_locationFilter, settle_companyFilter.
  destruct e; try discriminate; try (unfold handle in H).
  - destruct (fetchStatus s); try discriminate. injection H as <-.
    unfold mount, endEffect, pageEffect, loadPage, fetchData_start, setTimeout.
    repeat split; cbn; repeat case_if; reflexivity.
  - destruct (fetchStatus s); try discriminate. injection H as <-.
    unfold fetchData_settle. destruct (tryFetch res); repeat split.
  - injection H as <-. repeat split.
  - fold (handle toLowerCase (EFire i) s) in H.
    apply handle_fire in H as [t [_ [_ [_ ->]]]].
    destruct (act t); repeat split.
  - destruct (observing toLowerCase s); [|discriminate]. injection H as <-.
    unfold onIntersect. destruct (hasMore s); repeat split.
  - destruct (mounted s); [|discriminate]. injection H as <-. repeat split.
Qed.

(** X6. With no row in the table there is no last row to observe:
    once the fetch has finished, while the filters admit none of the
    displayed records no event loads a further page, however many records
    of the dataset are still hidden, until a filter is changed. *)
Theorem no_rows_no_paging (s : State) (es : list Event) (s' : State) :
  reachable toLowerCase s -> fetchStatus s = Finished ->
  filteredDataOf toLowerCase s = [] ->
  Forall (fun e => changesFilter e = false) es ->
  run toLowerCase es s = Some s' ->
  step toLowerCase EIntersect s = None
  /\ page s' = page s /\ companies s' = companies s
  /\ hasMore s' = hasMore s
  /\ filteredDataOf toLowerCase s' = [].
Proof.
  intros R F Emp Keep Run. pose proof (reachable_Phase toLowerCase s R) as Hph.
  assert (NoObs : forall t, filteredDataOf toLowerCase t = [] ->
                            step toLowerCase EIntersect t = None).
  { intros t E. unfold step, handle, observing. rewrite E. cbn.
    now rewrite andb_false_r. }
  split; [now apply NoObs|].
  clear R. revert s Hph F Emp Run.
  induction Keep as [|e es Ke _ IH]; simpl; intros s Hph F Emp.
  - intros [= <-]. repeat split; auto.
  - destruct (step toLowerCase e s) as [s1|] eqn:St; [|discriminate].
    intros Run.
    pose proof (proj1 (step_Phase toLowerCase s e s1 Hph St)) as Hph1.
    destruct (step_finished toLowerCase e s s1 Hph F St) as [F1 [A1 _]].
    destruct (step_keeps_filters e s s1 St Ke) as [G1 [L1 C1]].
    assert (P1 : page s1 = page s).
    { rewrite (step_page toLowerCase e s s1 St). destruct e; try reflexivity.
      rewrite (NoObs s Emp) in St. discriminate. }
    assert (Co1 : companies s1 = companies s).
    { now rewrite (Phase_companies s Hph), (Phase_companies s1 Hph1), P1, A1. }
    assert (Emp1 : filteredDataOf toLowerCase s1 = []).
    { unfold filteredDataOf in *. now rewrite Co1, G1, L1, C1. }
    assert (M1 : hasMore s1 = hasMore s).
    { destruct (allCompanies s) as [|c l] eqn:Ea.
      - destruct (Phase_unloaded s Hph Ea) as [_ [-> _]].
        now destruct (Phase_unloaded s1 Hph1 A1) as [_ [-> _]].
      - assert (Hne : allCompanies s <> []) by (rewrite Ea; discriminate).
        assert (Hne1 : allCompanies s1 <> []) by (rewrite A1; discriminate).
        destruct (Phase_loaded s Hph Hne) as [_ [_ [_ ->]]].
        destruct (Phase_loaded s1 Hph1 Hne1) as [_ [_ [_ ->]]].
        now rewrite P1, A1, Ea. }
    destruct (IH s1 Hph1 F1 Emp1 Run) as [P' [C' [M' E']]].
    repeat split; congruence.
Qed.

End Inputs.

(* ------------------------------------------------------------------ *)
(** ** Loading periods and progress *)

Section Progress.

Variable toLowerCase : string -> string.

Lemma step_tick (d : nat) (s : State) :
  step toLowerCase (ETick d) s = Some (set_now (now s + d) s).
Proof.
  unfold step, handle. f_equal.
  apply settle_quiet; unfold pageDeps_eqb, endDeps_eqb; projs;
    now rewrite ?Nat.eqb_refl, ?Bool.eqb_reflx.
Qed.

Lemma run_app (es1 es2 : list Event) (s s1 : State) :
  run toLowerCase es1 s = Some s1 ->
  run toLowerCase (es1 ++ es2) s = run toLowerCase es2 s1.
Proof.
  revert s. induction es1 as [|e es1 IH]; simpl; intros s.
  - now intros [= <-].
  - destruct (step toLowerCase e s); [apply IH | discriminate].
Qed.

Lemma Phase_loading (s : State) :
  Phase s -> fetchStatus s = Finished -> loading s = true ->
  exists i d, timers s = [mkTimer i d TLoadingOff].
Proof.
  intros H. destruct H; cbn [fetchStatus loading]; try discriminate.
  intros _ _. now exists i, d.
Qed.

(** The timer of a loading period, once due, ends it. *)
Lemma step_loading_off (s : State) (i d : nat) :
  Phase s -> fetchStatus s = Finished -> loading s = true ->
  timers s = [mkTimer i d TLoadingOff] -> d <= now s ->
  exists s', step toLowerCase (EFire i) s = Some s' /\ loading s' = false.
Proof.
  intros H. destruct H; cbn [fetchStatus loading timers now]; try discriminate.
  intros _ _ [= -> ->] Due. subst more.
  destruct (Nat.min (p * pageSize) (length all) <? length all) eqn:Hm;
    (eexists; split;
     [ unfold step, handle; norm; rewrite !Nat.eqb_refl; norm;
       replace (d <=? nw) with true by (symmetry; now apply Nat.leb_le);
       norm; unfold rounds; rewrite settle_S; eval_commit; quiet; reflexivity
     | reflexivity ]).
Qed.

Lemma loading_until_due (es : list Event) (s s' : State) (i d : nat) :
  Phase s -> fetchStatus s = Finished -> loading s = true ->
  timers s = [mkTimer i d TLoadingOff] ->
  run toLowerCase es s = Some s' -> loading s' = false ->
  d <= now s'.
Proof.
  revert s. induction es as [|e es IH]; simpl; intros s Hph F On Tm.
  - intros [= <-]. congruence.
  - destruct (step toLowerCase e s) as [s1|] eqn:St; [|discriminate].
    intros Run Off.
    pose proof (proj1 (step_Phase toLowerCase s e s1 Hph St)) as Hph1.
    destruct (step_loading toLowerCase s e s1 Hph St) as [_ [TurnOff [Stay _]]].
    destruct (step_finished toLowerCase e s s1 Hph F St) as [F1 _].
    destruct (loading s1) eqn:On1.
    + apply (IH s1 Hph1 F1 On1); try assumption.
      now rewrite (Stay F On eq_refl).
    + destruct (TurnOff F On eq_refl) as [i0 [d0 [Tm0 [_ Due]]]].
      rewrite Tm in Tm0. injection Tm0 as _ <-.
      pose proof (step_now toLowerCase e s s1 St).
      pose proof (run_now toLowerCase es s1 s' Run). lia.
Qed.

(** X7. Every step that reveals records starts a loading period with a
    timer due 1000 ms later. A loading period after the fetch has one
    pending timer; it ends only when that timer runs, not before it is
    due, and running it ends the period; no other step after the fetch
    starts one. *)
Theorem loading_lasts_a_second (s : State) :
  reachable toLowerCase s ->
  (forall e s', step toLowerCase e s = Some s' ->
      companies s' <> companies s ->
      loading s' = true
      /\ exists i, timers s' = [mkTimer i (now s' + 1000) TLoadingOff])
  /\ (forall e s', step toLowerCase e s = Some s' ->
        fetchStatus s = Finished -> loading s = false -> loading s' = true ->
        e = EIntersect /\ hasMore s = true)
  /\ (fetchStatus s = Finished -> loading s = true ->
      exists i d,
        timers s = [mkTimer i d TLoadingOff]
        /\ (forall es s', run toLowerCase es s = Some s' ->
              loading s' = false -> d <= now s')
        /\ (d <= now s ->
              exists s', step toLowerCase (EFire i) s = Some s'
                         /\ loading s' = false)).
Proof.
  intros R. pose proof (reachable_Phase toLowerCase s R) as Hph.
  split; [|split].
  - intros e s' St Ne.
    destruct (step_loading toLowerCase s e s' Hph St) as [[Eq|On] _];
      [contradiction | exact On].
  - intros e s' St F L L'.
    destruct (step_loading toLowerCase s e s' Hph St) as [_ [_ [_ Start]]].
    now apply Start.
  - intros F L. destruct (Phase_loading s Hph F L) as [i [d Tm]].
    exists i, d. split; [assumption|]. split.
    + intros es s' Run Off.
      exact (loading_until_due es s s' i d Hph F L Tm Run Off).
    + intros Due. exact (step_loading_off s i d Hph F L Tm Due).
Qed.

(** Waiting for the pending timer and letting it run ends a loading
    period and changes nothing else that the table shows. *)
Lemma finish_loading (s : State) :
  Phase s -> fetchStatus s = Finished -> loading s = true ->
  exists es s',
    run toLowerCase es s = Some s'
    /\ Forall (fun e => changesFilter e = false) es
    /\ loading s' = false /\ Phase s'
    /\ page s' = page s /\ allCompanies s' = allCompanies s
    /\ filteredDataOf toLowerCase s' = filteredDataOf toLowerCase s.
Proof.
  intros Hph F L. destruct (Phase_loading s Hph F L) as [i [d Tm]].
  pose proof (step_tick d s) as T.
  set (s1 := set_now (now s + d) s) in *.
  pose proof (proj1 (step_Phase toLowerCase s (ETick d) s1 Hph T)) as Hph1.
  destruct (step_loading_off s1 i d Hph1 F L Tm) as [s2 [St Off]].
  { unfold s1. projs. lia. }
  exists [ETick d; EFire i], s2. cbn [run]. rewrite T, St.
  pose proof (proj1 (step_Phase toLowerCase s1 (EFire i) s2 Hph1 St)) as Hph2.
  destruct (step_finished toLowerCase (EFire i) s1 s2 Hph1 F St) as [_ [A _]].
  pose proof (step_page toLowerCase (EFire i) s1 s2 St) as P. cbn in P.
  destruct (step_keeps_filters toLowerCase (EFire i) s1 s2 St eq_refl)
    as [G [Lc C]].
  repeat split; try assumption.
  - repeat constructor.
  - unfold filteredDataOf.
    rewrite (Phase_companies s2 Hph2), (Phase_companies s Hph), P, A, G, Lc, C.
    reflexivity.
Qed.

(** With a row on display and more to come, the observer can fire, and
    the next page starts loading. *)
Lemma load_next (s : State) :
  Phase s -> fetchStatus s = Finished -> loading s = false ->
  hasMore s = true -> filteredDataOf toLowerCase s <> [] ->
  exists s',
    step toLowerCase EIntersect s = Some s'
    /\ loading s' = true /\ page s' = page s + 1
    /\ page s * pageSize < length (allCompanies s).
Proof.
  intros Hph F L M Rows.
  assert (Ob : observing toLowerCase s = true).
  { unfold observing, mounted. rewrite F, L.
    destruct (filteredDataOf toLowerCase s); [contradiction | reflexivity]. }
  assert (St : exists s', step toLowerCase EIntersect s = Some s').
  { unfold step, handle. rewrite Ob. now eexists. }
  destruct St as [s' St]. exists s'. split; [assumption|].
  pose proof (proj1 (step_Phase toLowerCase s EIntersect s' Hph St)) as Hph'.
  destruct (intersect_more toLowerCase s s' Hph St M) as [Hne Lt].
  pose proof (step_page toLowerCase EIntersect s s' St) as P. cbn in P.
  rewrite M in P.
  destruct (step_finished toLowerCase EIntersect s s' Hph F St) as [_ [A _]].
  repeat split; try assumption.
  destruct (step_loading toLowerCase s EIntersect s' Hph St) as [[Eq|On] _];
    [|exact (proj1 On)].
  exfalso.
  rewrite (Phase_companies s Hph), (Phase_companies s' Hph'), P, A in Eq.
  apply (f_equal (@length Company)) in Eq. rewrite !shownAt_length in Eq.
  unfold pageSize in *. lia.
Qed.

Lemma scroll_to_end (k : nat) (s : State) :
  Phase s -> fetchStatus s = Finished -> loading s = false ->
  filteredDataOf toLowerCase s <> [] ->
  length (allCompanies s) - page s * pageSize <= k * pageSize ->
  exists es s',
    run toLowerCase es s = Some s'
    /\ Forall (fun e => changesFilter e = false) es
    /\ Phase s' /\ allCompanies s' = allCompanies s
    /\ hasMore s' = false /\ loading s' = false.
Proof.
  revert s. induction k as [|k IH]; intros s Hph F L Rows K.
  - exists [], s. cbn [run]. repeat split; auto.
    assert (Hne : allCompanies s <> []).
    { intros E. destruct (Phase_unloaded s Hph E) as [C _].
      unfold filteredDataOf, filteredData in Rows. now rewrite C in Rows. }
    destruct (Phase_loaded s Hph Hne) as [_ [_ [_ ->]]].
    apply Nat.ltb_ge. lia.
  - destruct (hasMore s) eqn:M.
    2: { exists [], s. cbn [run]. repeat split; auto. }
    destruct (load_next s Hph F L M Rows) as [s1 [St [L1 [P1 Lt]]]].
    pose proof (proj1 (step_Phase toLowerCase s EIntersect s1 Hph St)) as Hph1.
    destruct (step_finished toLowerCase EIntersect s s1 Hph F St) as [F1 [A1 _]].
    destruct (finish_loading s1 Hph1 F1 L1)
      as [es2 [s2 [Run2 [K2 [L2 [Hph2 [P2 [A2 Rows2]]]]]]]].
    assert (Rows1 : Prefix (filteredDataOf toLowerCase s)
                           (filteredDataOf toLowerCase s1)).
    { destruct (step_keeps_filters toLowerCase EIntersect s s1 St eq_refl)
        as [G [Lc C]].
      unfold filteredDataOf, filteredData. rewrite G, Lc, C.
      apply filter_Prefix. exact (step_grows toLowerCase EIntersect s s1 Hph St). }
    assert (Rows' : filteredDataOf toLowerCase s2 <> []).
    { rewrite Rows2. destruct Rows1 as [r ->].
      destruct (filteredDataOf toLowerCase s); [contradiction | discriminate]. }
    assert (F2 : fetchStatus s2 = Finished).
    { exact (proj1 (run_finished toLowerCase es2 s1 s2 Hph1 F1 Run2)). }
    destruct (IH s2 Hph2 F2 L2 Rows') as [es3 [s3 [Run3 [K3 [Hph3 [A3 [M3 L3]]]]]]].
    { rewrite A2, A1, P2, P1. unfold pageSize in *. lia. }
    exists (EIntersect :: es2 ++ es3), s3.
    repeat split; try assumption.
    + cbn [run]. rewrite St. now rewrite (run_app es2 es3 s1 s2 Run2).
    + constructor; [reflexivity|]. apply Forall_app. now split.
    + congruence.
Qed.

(** X8. Scrolling reaches the end: from every state of a session in
    which the table has a row, some sequence of events that changes no
    filter (the observer firing, time passing, timers running) displays
    the whole dataset and turns [hasMore] off. *)
Theorem scrolling_reaches_the_end (s : State) :
  reachable toLowerCase s -> filteredDataOf toLowerCase s <> [] ->
  exists es s',
    run toLowerCase es s = Some s'
    /\ Forall (fun e => changesFilter e = false) es
    /\ companies s' = allCompanies s
    /\ hasMore s' = false /\ loading s' = false.
Proof.
  intros R Rows. pose proof (reachable_Phase toLowerCase s R) as Hph.
  assert (Hne : allCompanies s <> []).
  { intros E. destruct (Phase_unloaded s Hph E) as [C _].
    unfold filteredDataOf, filteredData in Rows. now rewrite C in Rows. }
  destruct (Phase_loaded s Hph Hne) as [F _].
  assert (Ready : exists es1 s1,
            run toLowerCase es1 s = Some s1
            /\ Forall (fun e => changesFilter e = false) es1
            /\ loading s1 = false /\ Phase s1
            /\ allCompanies s1 = allCompanies s
            /\ filteredDataOf toLowerCase s1 = filteredDataOf toLowerCase s).
  { destruct (loading s) eqn:L.
    - destruct (finish_loading s Hph F L)
        as [es1 [s1 [Run1 [K1 [L1 [Hph1 [_ [A1 Rows1]]]]]]]].
      now exists es1, s1.
    - exists [], s. cbn [run]. repeat split; auto. }
  destruct Ready as [es1 [s1 [Run1 [K1 [L1 [Hph1 [A1 Rows1]]]]]]].
  assert (F1 : fetchStatus s1 = Finished).
  { exact (proj1 (run_finished toLowerCase es1 s s1 Hph F Run1)). }
  destruct (scroll_to_end (length (allCompanies s1)) s1 Hph1 F1 L1)
    as [es2 [s2 [Run2 [K2 [Hph2 [A2 [M2 L2]]]]]]].
  { now rewrite Rows1. }
  { unfold pageSize. lia. }
  exists (es1 ++ es2), s2. repeat split; try assumption.
  - now rewrite (run_app es1 es2 s s1 Run1).
  - apply Forall_app. now split.
  - destruct (Phase_Consistent s2 Hph2) as [_ Cn]. rewrite (Cn M2). congruence.
Qed.

End Progress.

(* ------------------------------------------------------------------ *)
(** ** The table and what surrounds it *)

Lemma rowValuesFrom_nth (data : list Company) (i k : nat) (row : Company) :
  nth_error data k = Some row ->
  nth_error (rowValuesFrom i data) k
  = Some [CNumber (i + k + 1); CText (owner row); CText (company row);
          CText (city row); CText (email row)].
Proof.
  revert i k. induction data as [|r data IH]; intros i k.
  - destruct k; discriminate.
  - destruct k as [|k]; simpl.
    + intros [= ->]. now rewrite Nat.add_0_r.
    + intros H. rewrite (IH (S i) k H). do 3 f_equal. lia.
Qed.

Lemma rowValuesFrom_ids (data : list Company) (i : nat) :
  map (fun r => hd (CText "") r) (rowValuesFrom i data)
  = map CNumber (seq (i + 1) (length data)).
Proof.
  revert i. induction data as [|r data IH]; intros i; simpl; [reflexivity|].
  f_equal. rewrite IH. now replace (S i + 1) with (S (i + 1)) by lia.
Qed.

(** X9. The ID column numbers the rows of the data handed to the
    table: row [k] (from 0) shows [k + 1] followed by the owner, company,
    city and email of its record, so the IDs of any filtered view are
    1, 2, ..., n without gaps, whatever records the view holds. *)
Theorem id_column_numbers_rows (data : list Company) :
  length (rowValues data) = length data
  /\ map (fun r => hd (CText "") r) (rowValues data)
     = map CNumber (seq 1 (length data))
  /\ (forall k row, nth_error data k = Some row ->
        nth_error (rowValues data) k
        = Some [CNumber (k + 1); CText (owner row); CText (company row);
                CText (city row); CText (email row)]).
Proof.
  split; [|split].
  - unfold rowValues. generalize 0.
    induction data as [|r data IH]; intros i; simpl; [reflexivity|].
    now rewrite IH.
  - exact (rowValuesFrom_ids data 0).
  - intros k row H. exact (rowValuesFrom_nth data 0 k row H).
Qed.

Section ViewFacts.

Variable toLowerCase : string -> string.

Lemma filteredDataOf_nil (s : State) :
  companies s = [] -> filteredDataOf toLowerCase s = [].
Proof. intros C. unfold filteredDataOf, filteredData. now rewrite C. Qed.

(** X10. What a session shows around the table. While the fetch is under
    way there are ten skeleton rows and nothing else; a failed session
    shows the error box and neither rows, skeletons, the notice of an
    empty result nor the end message; a session whose dataset is empty
    shows that notice and never the end message. A skeleton row has as
    many cells as a row of the table. *)
Theorem view_of_a_session (s : State) :
  reachable toLowerCase s -> mounted s = true ->
  (fetchStatus s <> Finished ->
     length (skeletonRows s) = 10
     /\ filteredDataOf toLowerCase s = []
     /\ emptyNotice toLowerCase s = false
     /\ errorBox s = None /\ endMessageVisible s = false)
  /\ (errorBox s <> None ->
      skeletonRows s = []
      /\ filteredDataOf toLowerCase s = []
      /\ emptyNotice toLowerCase s = false
      /\ endMessageVisible s = false)
  /\ (fetchStatus s = Finished -> errorBox s = None -> allCompanies s = [] ->
      emptyNotice toLowerCase s = true
      /\ skeletonRows s = [] /\ endMessageVisible s = false)
  /\ Forall (fun r => length r = length (SkeletonRow columns))
            (rowValues (filteredDataOf toLowerCase s)).
Proof.
  intros R M. pose proof (reachable_Phase toLowerCase s R) as Hph.
  split; [|split; [|split]].
  - intros NF. destruct Hph; cbn in M, NF; try discriminate; try congruence;
      repeat split; unfold emptyNotice;
      rewrite ?filteredDataOf_nil by reflexivity; reflexivity.
  - intros Eb. destruct Hph; try (now elim Eb);
      unfold errorBox in Eb; cbn [error] in Eb; try (now elim Eb).
    unfold emptyNotice, errorTruthy, endMessageVisible, errorTruthy,
      skeletonRows.
    rewrite filteredDataOf_nil by reflexivity. cbn. rewrite H. repeat split.
  - intros F Eb A. destruct Hph; try discriminate;
      cbn [allCompanies] in A; try congruence.
    + unfold errorBox in Eb. cbn [error] in Eb. rewrite H in Eb. discriminate.
    + unfold emptyNotice. rewrite filteredDataOf_nil by reflexivity.
      repeat split.
  - unfold rowValues. generalize 0.
    induction (filteredDataOf toLowerCase s) as [|r l IH]; intros i; simpl;
      constructor; [reflexivity | apply IH].
Qed.

End ViewFacts.

(* ------------------------------------------------------------------ *)
(** ** The dropdown component by itself *)

Module DropdownFacts.
Import Dropdown.

Lemma play_calls (locs : list string) (es : list Ev) (open open' : bool)
    (calls : list string) :
  play locs open es = Some (open', calls) ->
  length calls + weight open' <= length (filter isToggle es) + weight open
  /\ Forall (fun v => v = "" \/ In v locs) calls.
Proof.
  revert open open' calls. induction es as [|e es IH]; simpl;
    intros open open' calls.
  - intros [= <- <-]. split; [simpl; lia | constructor].
  - destruct (dispatch locs open e) as [[o1 call]|] eqn:H; [|discriminate].
    destruct (play locs o1 es) as [[o2 calls2]|] eqn:Rn; [|discriminate].
    intros [= <- <-]. destruct (IH o1 o2 calls2 Rn) as [Le Fa].
    destruct e; unfold dispatch, toggleDropdown, handleSelect, handleClickOutside in H.
    + injection H as <- <-. split; [|assumption].
      simpl. destruct open; simpl in *; lia.
    + destruct (open && selectable c locs) eqn:G; [|discriminate].
      injection H as <- <-. apply andb_true_iff in G as [-> S].
      split; [simpl in *; lia|]. constructor; [|assumption].
      apply selectable_spec in S as [->|[v [-> Hv]]]; [now left | now right].
    + injection H as <- <-. split; [|assumption].
      simpl. destruct outside, open; simpl in *; lia.
Qed.

End DropdownFacts.

(** X11. The dropdown reports a choice only from its open list: in a
    run that starts closed, [onChange] is called at most as often as the
    button was clicked, each time with the empty string (the placeholder)
    or one of the options, and every item click leaves the list closed. *)
Theorem dropdown_selects_only_when_open (locs : list string)
    (es : list Dropdown.Ev) (open' : bool) (calls : list string) :
  Dropdown.play locs false es = Some (open', calls) ->
  length calls <= length (filter Dropdown.isToggle es)
  /\ Forall (fun v => v = "" \/ In v locs) calls
  /\ (forall c o, Dropdown.dispatch locs true (Dropdown.ClickItem c) = Some o ->
        o = (false, Some (choiceValue c)))
  /\ (forall c, Dropdown.dispatch locs false (Dropdown.ClickItem c) = None).
Proof.
  intros Rn. destruct (DropdownFacts.play_calls locs es false open' calls Rn)
    as [Le Fa].
  repeat split; try assumption.
  - unfold Dropdown.weight in Le. simpl in Le. destruct open'; lia.
  - intros c o. unfold Dropdown.dispatch, Dropdown.handleSelect. cbn [andb].
    destruct (selectable c locs); [now intros [= <-] | discriminate].
Qed.

(* ------------------------------------------------------------------ *)
(** ** Search strings compared *)

Lemma Substring_refl (s : string) : Substring s s.
Proof.
  exists "", "". simpl. induction s as [|c s IH]; [reflexivity|].
  simpl. now rewrite <- IH.
Qed.

Lemma string_app_assoc (a b c : string) :
  ((a ++ b) ++ c)%string = (a ++ b ++ c)%string.
Proof. induction a as [|x a IH]; simpl; [reflexivity | now rewrite IH]. Qed.

Lemma Substring_trans (a b c : string) :
  Substring a b -> Substring b c -> Substring a c.
Proof.
  intros [p [q ->]] [p' [q' ->]]. exists (p' ++ p)%string, (q ++ q')%string.
  now rewrite !string_app_assoc.
Qed.

Section Search.

Variable toLowerCase : string -> string.

(** X12. A longer search string narrows the table: when the
    lower-cased search string [g] occurs in the lower-cased [g'], every
    record kept for [g'] is kept for [g], the other filters being equal.
    And a record kept under a company chosen in the dropdown is kept when
    that company's name is typed into the search box instead. *)
Theorem narrower_search_fewer_rows
    (cs : list Company) (g g' loc comp : string) (c : Company) :
  (Substring (toLowerCase g) (toLowerCase g') ->
   In c (filteredData toLowerCase cs g' loc comp) ->
   In c (filteredData toLowerCase cs g loc comp))
  /\ (comp <> "" ->
      In c (filteredData toLowerCase cs g loc comp) ->
      In c (filteredData toLowerCase cs comp loc "")).
Proof.
  split.
  - intros Sub. rewrite !filteredData_In, !matchesSearch_spec.
    intros [Hin [[S|S] [L C]]]; repeat split; auto;
      [left | right]; exact (Substring_trans _ _ _ Sub S).
  - intros Ne. rewrite !filteredData_In, !matchesSearch_spec.
    intros [Hin [_ [L C]]]. repeat split; auto.
    right. apply matchesCompany_spec in C as [E|E]; [contradiction|].
    rewrite E. apply Substring_refl.
Qed.

End Search.

(* ------------------------------------------------------------------ *)
(** ** How long paging takes *)

Section Timing.

Variable toLowerCase : string -> string.

Ltac timed :=
  unfold Timed, pace in *;
  cbn [fetchStatus allCompanies page loading timers now due] in *;
  try exact I; try (now left);
  try (right;
       repeat match goal with
              | H : _ \/ _ |- _ => destruct H as [H|H]; [congruence|]
              | H : (_ <=? _) = true |- _ => apply Nat.leb_le in H
              end; lia);
  try lia.

Ltac finishOk := intros [= <-]; norm; timed.




End Timing.

(* ================================================================== *)
(** * The further properties at the states of that session *)

Import Scenes.

Lemma displayed_list_only_grows_witness :
  reachable Str.lower sFirstPage
  /\ run Str.lower secondPage sFirstPage = Some sSecondPage
  /\ Prefix (companies sFirstPage) (companies sSecondPage).
Proof.
  assert (R0 : reachable Str.lower sFirstPage)
    by (apply SessionFacts.after_reachable; vm_compute; discriminate).
  assert (Run : run Str.lower secondPage sFirstPage = Some sSecondPage)
    by (vm_compute; reflexivity).
  split; [exact R0|]. split; [exact Run|].
  exact (proj1 (displayed_list_only_grows Str.lower sFirstPage secondPage
                  sSecondPage R0 Run)).
Defined.

Lemma filtered_rows_only_grow_witness :
  run Str.lower secondPage sFirstPage = Some sSecondPage
  /\ Prefix (filteredDataOf Str.lower sFirstPage)
            (filteredDataOf Str.lower sSecondPage).
Proof.
  assert (R0 : reachable Str.lower sFirstPage)
    by (apply SessionFacts.after_reachable; vm_compute; discriminate).
  assert (Run : run Str.lower secondPage sFirstPage = Some sSecondPage)
    by (vm_compute; reflexivity).
  assert (G : globalFilter sSecondPage = globalFilter sFirstPage)
    by (vm_compute; reflexivity).
  assert (L : locationFilter sSecondPage = locationFilter sFirstPage)
    by (vm_compute; reflexivity).
  assert (C : companyFilter sSecondPage = companyFilter sFirstPage)
    by (vm_compute; reflexivity).
  split; [exact Run|].
  exact (proj1 (filtered_rows_only_grow Str.lower sFirstPage secondPage
                  sSecondPage R0 Run G L C)).
Defined.

Lemma end_of_list_is_final_witness :
  reachable Str.lower sEndShown /\ hasMore sEndShown = false
  /\ run Str.lower [ETick 3000; EFire 4] sEndShown = Some sEndHidden
  /\ companies sEndHidden = companies sEndShown.
Proof.
  assert (R : reachable Str.lower sEndShown)
    by (apply SessionFacts.after_reachable; vm_compute; discriminate).
  assert (M : hasMore sEndShown = false) by (vm_compute; reflexivity).
  assert (Run : run Str.lower [ETick 3000; EFire 4] sEndShown = Some sEndHidden)
    by (vm_compute; reflexivity).
  split; [exact R|]. split; [exact M|]. split; [exact Run|].
  exact (proj1 (proj2 (proj2 (end_of_list_is_final Str.lower sEndShown
                  [ETick 3000; EFire 4] sEndHidden R M Run)))).
Defined.

Lemma input_changes_one_variable_witness :
  mounted sFirstPage = true
  /\ step Str.lower (ESearch "acme") sFirstPage
     = Some (set_globalFilter "acme" sFirstPage).
Proof.
  assert (M : mounted sFirstPage = true) by (vm_compute; reflexivity).
  split; [exact M|].
  exact (proj1 (input_changes_one_variable Str.lower sFirstPage M) "acme").
Defined.

Lemma filter_then_clear_round_trip_witness :
  mounted sFirstPage = true /\ globalFilter sFirstPage = ""
  /\ SearchInput.clearButton (globalFilter sFirstPage) = None.
Proof.
  assert (M : mounted sFirstPage = true) by (vm_compute; reflexivity).
  assert (G : globalFilter sFirstPage = "") by (vm_compute; reflexivity).
  split; [exact M|]. split; [exact G|].
  exact (proj1 (proj1 (filter_then_clear_round_trip Str.lower sFirstPage M) G)).
Defined.

Lemma no_rows_no_paging_witness :
  reachable Str.lower sNoRows /\ fetchStatus sNoRows = Finished
  /\ filteredDataOf Str.lower sNoRows = []
  /\ hasMore sNoRows = true
  /\ step Str.lower EIntersect sNoRows = None.
Proof.
  assert (R : reachable Str.lower sNoRows)
    by (apply SessionFacts.after_reachable; vm_compute; discriminate).
  assert (F : fetchStatus sNoRows = Finished) by (vm_compute; reflexivity).
  assert (E : filteredDataOf Str.lower sNoRows = []) by (vm_compute; reflexivity).
  assert (M : hasMore sNoRows = true) by (vm_compute; reflexivity).
  split; [exact R|]. split; [exact F|]. split; [exact E|]. split; [exact M|].
  exact (proj1 (no_rows_no_paging Str.lower sNoRows [] sNoRows R F E
                  (Forall_nil _) eq_refl)).
Defined.

Lemma loading_lasts_a_second_witness :
  reachable Str.lower sLoading /\ fetchStatus sLoading = Finished
  /\ loading sLoading = true
  /\ exists i d, timers sLoading = [mkTimer i d TLoadingOff].
Proof.
  assert (R : reachable Str.lower sLoading)
    by (apply SessionFacts.after_reachable; vm_compute; discriminate).
  assert (F : fetchStatus sLoading = Finished) by (vm_compute; reflexivity).
  assert (L : loading sLoading = true) by (vm_compute; reflexivity).
  split; [exact R|]. split; [exact F|]. split; [exact L|].
  destruct (proj2 (proj2 (loading_lasts_a_second Str.lower sLoading R)) F L)
    as [i [d [Tm _]]].
  exists i, d. exact Tm.
Defined.

Lemma scrolling_reaches_the_end_witness :
  reachable Str.lower sFirstPage /\ filteredDataOf Str.lower sFirstPage <> []
  /\ exists es s',
       run Str.lower es sFirstPage = Some s'
       /\ companies s' = allCompanies sFirstPage.
Proof.
  assert (R0 : reachable Str.lower sFirstPage)
    by (apply SessionFacts.after_reachable; vm_compute; discriminate).
  assert (N : filteredDataOf Str.lower sFirstPage <> [])
    by (vm_compute; discriminate).
  split; [exact R0|]. split; [exact N|].
  destruct (scrolling_reaches_the_end Str.lower sFirstPage
              R0 N) as [es [s' [Run [_ [C _]]]]].
  exists es, s'. split; [exact Run | exact C].
Defined.

Lemma id_column_numbers_rows_witness :
  nth_error dataset 2 = Some (record 2)
  /\ nth_error (rowValues dataset) 2
     = Some [CNumber 3; CText "Clice"; CText "Initech"; CText "paris";
             CText "info@example.com"].
Proof.
  assert (H : nth_error dataset 2 = Some (record 2)) by reflexivity.
  split; [exact H|].
  exact (proj2 (proj2 (id_column_numbers_rows dataset)) 2 (record 2) H).
Defined.

Lemma view_of_a_session_witness :
  reachable Str.lower sFailed /\ mounted sFailed = true
  /\ errorBox sFailed <> None /\ skeletonRows sFailed = [].
Proof.
  assert (R : reachable Str.lower sFailed)
    by (apply SessionFacts.after_reachable; vm_compute; discriminate).
  assert (M : mounted sFailed = true) by (vm_compute; reflexivity).
  assert (E : errorBox sFailed <> None) by (vm_compute; discriminate).
  split; [exact R|]. split; [exact M|]. split; [exact E|].
  exact (proj1 (proj1 (proj2 (view_of_a_session Str.lower sFailed R M)) E)).
Defined.

Lemma dropdown_selects_only_when_open_witness :
  Dropdown.play ["Paris"; "Berlin"] false clicks = Some (false, ["Paris"])
  /\ length ["Paris"] <= length (filter Dropdown.isToggle clicks).
Proof.
  assert (Run : Dropdown.play ["Paris"; "Berlin"] false clicks
                = Some (false, ["Paris"])) by reflexivity.
  split; [exact Run|].
  exact (proj1 (dropdown_selects_only_when_open ["Paris"; "Berlin"] clicks
                  false ["Paris"] Run)).
Defined.

Lemma narrower_search_fewer_rows_witness :
  Substring (Str.lower "Lic") (Str.lower "ALICE")
  /\ In (record 0) (filteredData Str.lower dataset "ALICE" "" "")
  /\ In (record 0) (filteredData Str.lower dataset "Lic" "" "").
Proof.
  assert (S : Substring (Str.lower "Lic") (Str.lower "ALICE"))
    by (now exists "a", "e").
  assert (H : In (record 0) (filteredData Str.lower dataset "ALICE" "" ""))
    by (vm_compute; now left).
  split; [exact S|]. split; [exact H|].
  exact (proj1 (narrower_search_fewer_rows Str.lower dataset "Lic" "ALICE"
                  "" "" (record 0)) S H).
Defined.

